(** * TrafficAlert-Frontend: the driving-session screen

    A shallow embedding of [HomeScreen] (the revision with the detailed
    alert card, and the earlier revision under [app/(tabs)/index.tsx]):
    the component state, the async functions [beep] and [tick], the button
    handlers [startDriving] and [stopDriving], and the event loop on which
    their continuations interleave. *)

From Stdlib Require Import ZArith QArith Qround Qabs String Ascii List.
From Stdlib Require Import DecimalString SpecFloat Lia Lqa.
From stdpp Require Import base gmap.

Local Open Scope string_scope.

(** ** JavaScript numbers

    A JS number is an IEEE-754 binary64 value.  [spec_float] carries the
    sign, the mantissa and the exponent, so the mathematical value of a
    finite number is available exactly. *)

Module Num.

Definition prec : Z := 53.
Definition emax : Z := 1024.

Abbreviation number := spec_float.

(** An integer literal, such as the [1000] of [distanceMeters / 1000]. *)
Definition of_Z (z : Z) : number := binary_normalize prec emax z 0 false.

(** The [/] operator. *)
Definition div (x y : number) : number := SFdiv prec emax x y.

(** 2^e as a rational. *)
Definition pow2 (e : Z) : Q :=
  match e with
  | Z0 => 1
  | Zpos p => inject_Z (Z.pow_pos 2 p)
  | Zneg p => 1 # (Pos.iter (fun q => q~0)%positive 1%positive p)
  end.

(** The magnitude of a number (0 for the values that have none). *)
Definition magnitude (x : number) : Q :=
  match x with
  | S754_finite _ m e => inject_Z (Zpos m) * pow2 e
  | _ => 0
  end.

Definition is_negative (x : number) : bool :=
  match x with
  | S754_finite s _ _ => s
  | _ => false
  end.

Definition is_finite (x : number) : bool :=
  match x with
  | S754_finite _ _ _ | S754_zero _ => true
  | _ => false
  end.

(** Decimal digits of a natural number, as [Number::toString] prints an
    integer below 2^53. *)
Definition digits (n : N) : string := NilZero.string_of_uint (N.to_uint n).

Fixpoint zeros (k : nat) : string :=
  match k with
  | O => ""
  | S k => String "0" (zeros k)
  end.

(** Steps 9-10 of [Number.prototype.toFixed]: pad the digit string [m] to
    at least [f + 1] characters and put a point before the last [f]. *)
Definition place_point (f : nat) (m : string) : string :=
  match f with
  | O => m
  | _ =>
      let k := String.length m in
      let m := if (k <=? f)%nat then zeros (f + 1 - k) ++ m else m in
      let k := String.length m in
      substring 0 (k - f) m ++ "." ++ substring (k - f) f m
  end.

(** Step 8.a: the integer [n] for which [n / 10^f - x] is as close to zero
    as possible, the larger one when there are two. *)
Definition nearest (f : nat) (x : Q) : Z :=
  Qfloor (x * inject_Z (10 ^ Z.of_nat f) + (1 # 2)).

Definition ten21 : Q := inject_Z (10 ^ 21).

Section ToString.

(** [Number::toString] of the ECMAScript runtime (shortest decimal that
    reads back as the same number); it is not code of this repository. *)
Variable Number_toString : number -> string.

(** [x.toFixed(f)]. *)
Definition toFixed (x : number) (f : nat) : string :=
  if negb (is_finite x) then Number_toString x
  else if Qle_bool ten21 (magnitude x) then Number_toString x
  else
    (if is_negative x then "-" else "")
      ++ place_point f (digits (Z.to_N (nearest f (magnitude x)))).

End ToString.

End Num.

(** ** Data received from the backend *)

Module AlertEvent.
Record t : Type := mk {
  id : string;
  type : string;
  title : option string;
  cause : option string;
  road : option string;
  pkText : option string;
  pkKm : option Num.number;
  direction : option string;
  orientation : option string;
  province : option string;
  municipality : option string;
  startTime : option string;
  source : option string;
  lat : Num.number;
  lon : Num.number;
  severity : option Num.number
}.
End AlertEvent.

Record AlertHit : Type := mkHit {
  event : AlertEvent.t;
  distanceMeters : Num.number
}.

(** ** The platform the screen runs on *)

(** [pos.coords] of expo-location; only the two fields [tick] reads. *)
Record Coords : Type := { latitude : Num.number; longitude : Num.number }.
Record LocationObject : Type := { coords : Coords }.

(** A [fetch] response: [ok] is true exactly for the statuses 200-299. *)
Record Response : Type := { res_status : N }.
Definition ok (res : Response) : bool :=
  (200 <=? res_status res)%N && (res_status res <=? 299)%N.

(** An [Audio.Sound] object, and a thrown value. *)
Definition Sound : Type := positive.
Definition Error : Type := string.

Inductive OS : Type := web | android | ios | other_os.

(** What the module reads from its surroundings when it is loaded, and the
    runtime's [Number::toString]. *)
Record Runtime : Type := {
  EXPO_PUBLIC_API_URL : option string;
  Platform_OS : OS;
  Device_isDevice : bool;
  Number_toString : Num.number -> string
}.

Definition is_os (a b : OS) : bool :=
  match a, b with
  | web, web | android, android | ios, ios | other_os, other_os => true
  | _, _ => false
  end.

Definition truthy (s : option string) : bool :=
  match s with
  | Some (String _ _) => true
  | _ => false
  end.

Definition getBackendBaseUrl (rt : Runtime) : string :=
  let envUrl := EXPO_PUBLIC_API_URL rt in
  if truthy envUrl then default "" envUrl
  else if is_os (Platform_OS rt) web then "http://localhost:8080/api"
  else if is_os (Platform_OS rt) android && negb (Device_isDevice rt)
       then "http://10.0.2.2:8080/api"
  else if is_os (Platform_OS rt) ios && negb (Device_isDevice rt)
       then "http://localhost:8080/api"
  else "http://192.168.1.40:8080/api".

(** ** Asynchronous functions

    An async function is a tree: synchronous reads and writes of the
    component's state and refs, and [await]s at which it is suspended until
    the awaited promise settles.  Other callbacks run while it is suspended,
    so a continuation receives the state as it is when it resumes. *)

Inductive Op : Type :=
| GetCurrentPosition            (* Location.getCurrentPositionAsync({accuracy: High}) *)
| Fetch (url : string)          (* fetch(url) *)
| Json (res : Response)         (* res.json() *)
| CreateSound                   (* Audio.Sound.createAsync(require("beep.mp3")) *)
| Replay (snd : Sound).         (* sound.replayAsync() *)

Definition Answer (op : Op) : Type :=
  match op with
  | GetCurrentPosition => LocationObject
  | Fetch _ => Response
  | Json _ => list AlertHit
  | CreateSound => Sound
  | Replay _ => unit
  end.

Inductive Settled (A : Type) : Type :=
| Fulfilled (a : A)
| Rejected (e : Error).
Arguments Fulfilled {A} a.
Arguments Rejected {A} e.

(** How the promise of each operation settles. *)
Definition Oracle : Type := forall op : Op, Settled (Answer op).

Section Async.

Variable St : Type.

Inductive Async (A : Type) : Type :=
| Ret (a : A)
| Throw (e : Error)
| Get (k : St -> Async A)
| Put (f : St -> St) (k : Async A)
| Await (op : Op) (k : Settled (Answer op) -> Async A).

Arguments Ret {A} a.
Arguments Throw {A} e.
Arguments Get {A} k.
Arguments Put {A} f k.
Arguments Await {A} op k.

Fixpoint bind {A B : Type} (m : Async A) (f : A -> Async B) : Async B :=
  match m with
  | Ret a => f a
  | Throw e => Throw e
  | Get k => Get (fun s => bind (k s) f)
  | Put g k => Put g (bind k f)
  | Await op k => Await op (fun r => bind (k r) f)
  end.

(** [try { m } catch (e) { h e }] *)
Fixpoint catch {A : Type} (m : Async A) (h : Error -> Async A) : Async A :=
  match m with
  | Ret a => Ret a
  | Throw e => h e
  | Get k => Get (fun s => catch (k s) h)
  | Put g k => Put g (catch k h)
  | Await op k => Await op (fun r => catch (k r) h)
  end.

(** [try { m } finally { fin }] *)
Fixpoint finally {A : Type} (m : Async A) (fin : Async unit) : Async A :=
  match m with
  | Ret a => bind fin (fun _ => Ret a)
  | Throw e => bind fin (fun _ => Throw e)
  | Get k => Get (fun s => finally (k s) fin)
  | Put g k => Put g (finally k fin)
  | Await op k => Await op (fun r => finally (k r) fin)
  end.

(** [await op]: the value of the promise, or its rejection thrown. *)
Definition await (op : Op) : Async (Answer op) :=
  Await op (fun r =>
    match r with
    | Fulfilled a => Ret a
    | Rejected e => Throw e
    end).

Definition put (f : St -> St) : Async unit := Put f (Ret tt).
Definition get : Async St := Get (fun s => Ret s).

(** *** Running one call to its end *)

Record Run (A : Type) : Type := mkRun {
  final : St;                (* the state when the call has finished *)
  outcome : Settled A;       (* how the promise of the call settles *)
  issued : list Op           (* the operations it awaited, in order *)
}.
Arguments mkRun {A} final outcome issued.
Arguments final {A} r.
Arguments outcome {A} r.
Arguments issued {A} r.

Fixpoint exec {A : Type} (m : Async A) (env : Oracle) (s : St) : Run A :=
  match m with
  | Ret a => mkRun s (Fulfilled a) []
  | Throw e => mkRun s (Rejected e) []
  | Get k => exec (k s) env s
  | Put f k => exec k env (f s)
  | Await op k =>
      let '(mkRun s' r ops) := exec (k (env op)) env s in
      mkRun s' r (op :: ops)
  end.

(** *** Running a call up to its next [await] *)

Inductive Parked (A : Type) : Type :=
| Finished (r : Settled A)
| Waiting (op : Op) (k : Settled (Answer op) -> Async A).
Arguments Finished {A} r.
Arguments Waiting {A} op k.

Fixpoint advance {A : Type} (m : Async A) (s : St) : St * Parked A :=
  match m with
  | Ret a => (s, Finished (Fulfilled a))
  | Throw e => (s, Finished (Rejected e))
  | Get k => advance (k s) s
  | Put f k => advance k (f s)
  | Await op k => (s, Waiting op k)
  end.

End Async.

Arguments Ret {St A} a.
Arguments Throw {St A} e.
Arguments Get {St A} k.
Arguments Put {St A} f k.
Arguments Await {St A} op k.
Arguments bind {St A B} m f.
Arguments catch {St A} m h.
Arguments finally {St A} m fin.
Arguments await {St} op.
Arguments put {St} f.
Arguments get {St}.
Arguments mkRun {St A} final outcome issued.
Arguments final {St A} r.
Arguments outcome {St A} r.
Arguments issued {St A} r.
Arguments exec {St A} m env s.
Arguments Finished {St A} r.
Arguments Waiting {St A} op k.
Arguments advance {St A} m s.

Declare Scope async_scope.
Delimit Scope async_scope with async.
Notation "'let!' x := m 'in' k" := (bind m (fun x => k))
  (at level 10, x name, m at level 100, k at level 200) : async_scope.
Notation "m ;; k" := (bind m (fun _ => k))
  (at level 100, k at level 200, right associativity) : async_scope.

(** ** The component

    [useState] cells and [useRef] cells of [HomeScreen].  The two revisions
    differ in what the last alert is kept as: the hit itself
    ([lastHit : AlertHit | null]) or the line that is shown
    ([lastAlert : string]); [L] is that type. *)

Record HomeScreen (L : Type) : Type := mkScreen {
  driving : bool;
  status : string;
  busy : bool;
  lastHit : L;
  timerRef : option positive;     (* timerRef.current; a handle is never 0,
                                     so [if (timerRef.current)] tests for null *)
  soundRef : option Sound         (* soundRef.current *)
}.
Arguments mkScreen {L} driving status busy lastHit timerRef soundRef.
Arguments driving {L} h.
Arguments status {L} h.
Arguments busy {L} h.
Arguments lastHit {L} h.
Arguments timerRef {L} h.
Arguments soundRef {L} h.

Section Setters.

Context {L : Type}.
Local Abbreviation scr := (HomeScreen L).

Definition with_driving (v : bool) (h : scr) : scr :=
  mkScreen v (status h) (busy h) (lastHit h) (timerRef h) (soundRef h).
Definition with_status (v : string) (h : scr) : scr :=
  mkScreen (driving h) v (busy h) (lastHit h) (timerRef h) (soundRef h).
Definition with_busy (v : bool) (h : scr) : scr :=
  mkScreen (driving h) (status h) v (lastHit h) (timerRef h) (soundRef h).
Definition with_lastHit (v : L) (h : scr) : scr :=
  mkScreen (driving h) (status h) (busy h) v (timerRef h) (soundRef h).
Definition with_timerRef (v : option positive) (h : scr) : scr :=
  mkScreen (driving h) (status h) (busy h) (lastHit h) v (soundRef h).
Definition with_soundRef (v : option Sound) (h : scr) : scr :=
  mkScreen (driving h) (status h) (busy h) (lastHit h) (timerRef h) v.

Definition setDriving (v : bool) : Async scr unit := put (with_driving v).
Definition setStatus (v : string) : Async scr unit := put (with_status v).
Definition setBusy (v : bool) : Async scr unit := put (with_busy v).
Definition setLastHit (v : L) : Async scr unit := put (with_lastHit v).

Local Open Scope async_scope.

(** [beep]: the sound is created when [soundRef.current] is empty, then
    replayed; whatever is thrown is dropped. *)
Definition beep : Async scr unit :=
  catch
    (let! h := get in
     (match soundRef h with
      | None =>
          let! sound := await CreateSound in
          put (with_soundRef (Some sound))
      | Some _ => Ret tt
      end) ;;
     let! h := get in
     match soundRef h with
     | Some sound => await (Replay sound)
     | None => Throw "TypeError: Cannot read properties of null"
     end)
    (fun _ => Ret tt).

End Setters.

(** What differs between the two revisions of the screen. *)
Record Revision : Type := {
  Last : Type;
  initial_last : Last;                 (* [useState] initial value *)
  no_alert : Last;                     (* written when no hit came back *)
  of_hit : AlertHit -> Last;           (* written for the first hit *)
  query_tail : string;                 (* what follows [radiusMeters=2000] *)
  shown : Last -> string               (* the text under "Ultima alerta" *)
}.

Section Screen.

Variable rt : Runtime.

Definition BACKEND_BASE_URL : string := getBackendBaseUrl rt.

(** [`${x}`] for a number. *)
Definition show (x : Num.number) : string := Number_toString rt x.

(** [(hit.distanceMeters / 1000).toFixed(1)] *)
Definition km (hit : AlertHit) : string :=
  Num.toFixed (Number_toString rt)
    (Num.div (distanceMeters hit) (Num.of_Z 1000)) 1.

(** *** The revision with the detailed card *)

Definition headline (lastHit : option AlertHit) : string :=
  match lastHit with
  | Some hit =>
      match AlertEvent.title (event hit) with
      | Some t => t
      | None => "Incidencia"
      end
  | None => "—"
  end.

Definition subline (lastHit : option AlertHit) : string :=
  match lastHit with
  | Some hit =>
      headline lastHit ++ " (" ++ AlertEvent.id (event hit) ++ ") a "
        ++ km hit ++ " km"
  | None => "—"
  end.

Definition detail : Revision := {|
  Last := option AlertHit;
  initial_last := None;
  no_alert := None;
  of_hit := Some;
  query_tail := "";
  shown := subline
|}.

(** *** The revision under [app/(tabs)] *)

Definition msg (hit : AlertHit) : string :=
  default "undefined" (AlertEvent.title (event hit)) ++ " a " ++ km hit ++ " km".

Definition tabs : Revision := {|
  Last := string;
  initial_last := "-";
  no_alert := "-";
  of_hit := msg;
  query_tail := "&demo=true";
  shown := fun lastAlert => lastAlert
|}.

(** *** [tick] *)

Variable rv : Revision.
Local Abbreviation scr := (HomeScreen (Last rv)).

Definition alerts_url (latitude longitude : Num.number) : string :=
  BACKEND_BASE_URL ++ "/alerts?lat=" ++ show latitude ++ "&lon=" ++ show longitude
    ++ "&radiusMeters=2000" ++ query_tail rv.

Local Open Scope async_scope.

Definition tick : Async scr unit :=
  setBusy true ;;
  finally
    (catch
       (setStatus "Obteniendo ubicación…" ;;
        let! pos := await GetCurrentPosition in
        let latitude := latitude (coords pos) in
        let longitude := longitude (coords pos) in
        setStatus "Consultando incidencias…" ;;
        let url := alerts_url latitude longitude in
        let! res := await (Fetch url) in
        if negb (ok res) then
          setStatus ("Backend " ++ Num.digits (res_status res))
        else
          let! hits := await (Json res) in
          match hits with
          | [] =>
              setStatus "Sin incidencias cercanas" ;;
              setLastHit (no_alert rv)
          | hit :: _ =>
              setLastHit (of_hit rv hit) ;;
              setStatus "ALERTA" ;;
              beep
          end)
       (fun e => setStatus "Error consultando backend"))
    (setBusy false).

(** The state of a freshly mounted screen. *)
Definition mounted : scr :=
  mkScreen false "Listo" false (initial_last rv) None None.

End Screen.

(** ** The event loop

    Timer callbacks, button handlers and promise settlements run one at a
    time on a single thread.  The world holds the component, the intervals
    armed with [setInterval], the calls suspended at an [await], and the
    operations requested so far. *)

Section EventLoop.

Variable rt : Runtime.
Variable rv : Revision.
Local Abbreviation scr := (HomeScreen (Last rv)).

(** A call suspended at [await awaited]. *)
Record Task : Type := mkTask {
  awaited : Op;
  resume : Settled (Answer awaited) -> Async scr unit
}.

Record World : Type := mkWorld {
  screen : scr;
  timers : gmap positive N;      (* armed intervals: handle -> period (ms) *)
  nextTimer : positive;          (* the handle [setInterval] returns next *)
  tasks : gmap positive Task;    (* suspended calls *)
  nextTask : positive;
  requests : list Op;            (* operations requested, oldest first *)
  unhandled : list Error         (* rejections of calls nobody awaits *)
}.

Definition with_screen (h : scr) (w : World) : World :=
  mkWorld h (timers w) (nextTimer w) (tasks w) (nextTask w) (requests w)
    (unhandled w).

(** Where a call stands after running up to its next [await]. *)
Definition park (i : positive) (r : scr * Parked scr unit) (w : World) : World :=
  match r with
  | (h, Finished (Fulfilled _)) =>
      mkWorld h (timers w) (nextTimer w) (delete i (tasks w)) (nextTask w)
        (requests w) (unhandled w)
  | (h, Finished (Rejected e)) =>
      mkWorld h (timers w) (nextTimer w) (delete i (tasks w)) (nextTask w)
        (requests w) (unhandled w ++ [e])
  | (h, Waiting op k) =>
      mkWorld h (timers w) (nextTimer w) (<[i := mkTask op k]> (tasks w))
        (nextTask w) (requests w ++ [op]) (unhandled w)
  end.

(** [f()] for an async function whose promise is dropped. *)
Definition call (m : Async scr unit) (w : World) : World :=
  let i := nextTask w in
  park i (advance m (screen w))
    (mkWorld (screen w) (timers w) (nextTimer w) (tasks w) (Pos.succ i)
       (requests w) (unhandled w)).

(** The promise that call [i] awaits settles as [env] says. *)
Definition settle (i : positive) (env : Oracle) (w : World) : World :=
  match tasks w !! i with
  | Some t => park i (advance (resume t (env (awaited t))) (screen w)) w
  | None => w
  end.

(** [setInterval(f, ms)] and [clearInterval(t)]. *)
Definition setInterval (ms : N) (w : World) : positive * World :=
  let t := nextTimer w in
  (t, mkWorld (screen w) (<[t := ms]> (timers w)) (Pos.succ t) (tasks w)
        (nextTask w) (requests w) (unhandled w)).

Definition clearInterval (t : positive) (w : World) : World :=
  mkWorld (screen w) (delete t (timers w)) (nextTimer w) (tasks w)
    (nextTask w) (requests w) (unhandled w).

Definition update (f : scr -> scr) (w : World) : World :=
  with_screen (f (screen w)) w.

Definition startDriving (w : World) : World :=
  let w := update (with_driving true) w in
  let w := update (with_status "Conducción activa") w in
  let w := call (tick rt rv) w in
  let '(t, w) := setInterval 30000 w in
  update (with_timerRef (Some t)) w.

Definition stopDriving (w : World) : World :=
  let w := update (with_driving false) w in
  let w := match timerRef (screen w) with
           | Some t => clearInterval t w
           | None => w
           end in
  let w := update (with_timerRef None) w in
  let w := update (with_busy false) w in
  update (with_status "Parado") w.

(** An armed interval fires: its callback [tick] is called. *)
Definition fire (t : positive) (w : World) : World :=
  match timers w !! t with
  | Some _ => call (tick rt rv) w
  | None => w
  end.

Inductive Event : Type :=
| Start                               (* startDriving() *)
| Stop                                (* stopDriving() *)
| TryNow                              (* tick(), from "Probar ahora" *)
| Fires (t : positive)                (* an interval elapses *)
| Settles (i : positive) (env : Oracle).

Definition step (w : World) (e : Event) : World :=
  match e with
  | Start => startDriving w
  | Stop => stopDriving w
  | TryNow => call (tick rt rv) w
  | Fires t => fire t w
  | Settles i env => settle i env w
  end.

Definition run (w : World) (es : list Event) : World := fold_left step es w.

Definition is_start (e : Event) : bool :=
  match e with Start => true | _ => false end.

(** The screen right after it is mounted. *)
Definition boot : World := mkWorld (mounted rv) ∅ 1%positive ∅ 1%positive [] [].

End EventLoop.

Arguments screen {rv} w.
Arguments timers {rv} w.
Arguments nextTimer {rv} w.
Arguments tasks {rv} w.
Arguments nextTask {rv} w.
Arguments requests {rv} w.
Arguments unhandled {rv} w.
Arguments awaited {rv} t.
Arguments resume {rv} t.
Arguments mkTask {rv} awaited resume.
Arguments mkWorld {rv} screen timers nextTimer tasks nextTask requests unhandled.
Arguments with_screen {rv} h w.
Arguments park {rv} i r w.
Arguments call {rv} m w.
Arguments settle {rv} i env w.
Arguments setInterval {rv} ms w.
Arguments clearInterval {rv} t w.
Arguments update {rv} f w.
Arguments startDriving rt {rv} w.
Arguments stopDriving {rv} w.
Arguments fire rt {rv} t w.
Arguments step rt {rv} w e.
Arguments run rt {rv} w es.

(** ** Observing runs *)

Definition is_location (op : Op) : bool :=
  match op with GetCurrentPosition => true | _ => false end.

Definition is_fetch (op : Op) : bool :=
  match op with Fetch _ => true | _ => false end.

Section Settling.

Context {rv : Revision}.

(** Call [i] is resumed [n] times, every promise settling as [env] says;
    resuming a call that has finished changes nothing. *)
Fixpoint settles (n : nat) (i : positive) (env : Oracle) (w : World rv) : World rv :=
  match n with
  | O => w
  | S n => settles n i env (settle i env w)
  end.

(** Where a call stands once [j] of its awaited promises have settled. *)
Fixpoint after (j : nat) (m : Async (HomeScreen (Last rv)) unit) (env : Oracle)
    (s : HomeScreen (Last rv)) : HomeScreen (Last rv) * Parked (HomeScreen (Last rv)) unit :=
  match j with
  | O => advance m s
  | S j =>
      match advance m s with
      | (s', Waiting op k) => after j (k (env op)) env s'
      | r => r
      end
  end.

(** The rest of a parked call, as a call of its own. *)
Definition rest_of (p : Parked (HomeScreen (Last rv)) unit) : Async (HomeScreen (Last rv)) unit :=
  match p with
  | Finished (Fulfilled a) => Ret a
  | Finished (Rejected e) => Throw e
  | Waiting op k => Await op k
  end.

(** What [stopDriving] writes to the component. *)
Definition stopped (s : HomeScreen (Last rv)) : HomeScreen (Last rv) :=
  with_status "Parado" (with_busy false (with_timerRef None (with_driving false s))).

(** The call writes neither [driving] nor [timerRef.current], and never
    sets [busy]. *)
Definition lets_be (s s' : HomeScreen (Last rv)) : Prop :=
  timerRef s' = timerRef s /\ driving s' = driving s
  /\ (busy s' = true -> busy s = true).

Fixpoint winds_down {A : Type} (m : Async (HomeScreen (Last rv)) A) : Prop :=
  match m with
  | Ret _ | Throw _ => True
  | Get k => forall s, winds_down (k s)
  | Put f k => (forall s, lets_be s (f s)) /\ winds_down k
  | Await op k => forall r, winds_down (k r)
  end.

(** Every suspended call winds down when it is resumed. *)
Definition calm (w : World rv) : Prop :=
  forall i t, tasks w !! i = Some t -> forall r, winds_down (resume t r).

(** Every armed interval is the one whose handle [timerRef.current] holds. *)
Definition single_timer (w : World rv) : Prop :=
  forall t ms, timers w !! t = Some ms -> timerRef (screen w) = Some t.

(** [setInterval] has not yet handed out the handle it returns next. *)
Definition fresh_timers (w : World rv) : Prop :=
  forall t ms, timers w !! t = Some ms -> (t < nextTimer w)%positive.

End Settling.

(** What the rendered screen lets happen: "Iniciar conduccion" is shown when
    [driving] is false and "Detener" when it is true, "Probar ahora" is
    disabled unless [driving && !busy], and only an armed interval fires. *)
Definition offered {rv : Revision} (w : World rv) (e : Event) : bool :=
  match e with
  | Start => negb (driving (screen w))
  | Stop => driving (screen w)
  | TryNow => driving (screen w) && negb (busy (screen w))
  | Fires t => bool_decide (is_Some (timers w !! t))
  | Settles _ _ => true
  end.

(** The worlds that the mounted screen reaches through its own controls. *)
Inductive on_screen (rt : Runtime) {rv : Revision} : World rv -> Prop :=
| on_boot : on_screen rt (boot rv)
| on_step (w : World rv) (e : Event) :
    on_screen rt w -> offered w e = true -> on_screen rt (step rt w e).

(** A sequence of events in which [startDriving] is not called. *)
Definition no_start (es : list Event) : bool :=
  forallb (fun e => negb (is_start e)) es.

(** What a tick that finishes after [stopDriving] leaves behind ([late]),
    set against the same tick left alone ([alone]); [j] promises had settled
    when [stopDriving] ran.  The last alert and the sound end as in the
    uninterrupted run and [busy] is written false.  A tick that was waiting
    for the position, the response or its body also writes its status over
    "Parado"; one that was waiting inside [beep], or had finished, does not. *)
Definition written_after_stop {L : Type} (j : nat)
    (alone late : Run (HomeScreen L) unit) : Prop :=
  driving (final late) = false
  /\ busy (final late) = false
  /\ lastHit (final late) = lastHit (final alone)
  /\ soundRef (final late) = soundRef (final alone)
  /\ match nth_error (issued alone) j with
     | Some GetCurrentPosition | Some (Fetch _) | Some (Json _) =>
         status (final late) = status (final alone)
         /\ status (final late) <> "Parado"
     | Some CreateSound | Some (Replay _) | None =>
         status (final late) = "Parado"
     end.

(** ** Sample inputs *)

Module Sample.

(** Prints the integer-valued numbers below 2^53 as the runtime does; the
    samples print no other number. *)
Definition toString (x : Num.number) : string :=
  match x with
  | S754_zero _ => "0"
  | S754_finite s m e =>
      (if s then "-" else "")
        ++ Num.digits (Z.to_N (Qfloor (Num.magnitude x)))
  | S754_infinity s => if s then "-Infinity" else "Infinity"
  | S754_nan => "NaN"
  end.

Definition rt : Runtime := {|
  EXPO_PUBLIC_API_URL := None;
  Platform_OS := android;
  Device_isDevice := false;
  Number_toString := toString
|}.

Definition here : LocationObject :=
  {| coords := {| latitude := Num.of_Z 40; longitude := Num.of_Z (-3) |} |}.

Definition incident (meters : Z) : AlertHit :=
  mkHit
    (AlertEvent.mk "a1" "OBRAS" (Some "Incident") None None None None None
       None None None None None (Num.of_Z 40) (Num.of_Z (-3)) None)
    (Num.of_Z meters).

(** The position is found, the backend answers with HTTP status [code] and
    the body [hits], the sound plays. *)
Definition backend (code : N) (hits : list AlertHit) : Oracle :=
  fun op =>
    match op with
    | GetCurrentPosition => Fulfilled here
    | Fetch _ => Fulfilled {| res_status := code |}
    | Json _ => Fulfilled hits
    | CreateSound => Fulfilled 1%positive
    | Replay _ => Fulfilled tt
    end.


(** Every promise is rejected. *)
Definition offline : Oracle := fun op => Rejected "Network request failed".

(** The position is found, the request fails. *)
Definition unreachable : Oracle :=
  fun op =>
    match op with
    | GetCurrentPosition => Fulfilled here
    | op => offline op
    end.

(** The response arrives, its body is not JSON. *)
Definition garbled : Oracle :=
  fun op =>
    match op with
    | Json _ => Rejected "SyntaxError: Unexpected token"
    | op => backend 200 [] op
    end.

End Sample.

(** ** What is rendered

    The parts of the returned element tree that depend on the state: the
    colours of the status pill and of the alert line, and the rows of the
    detail card. *)

Module Theme.
Record t : Type := mk {
  bg : string;
  card : string;
  text : string;
  muted : string;
  border : string;
  pillBg : string;
  primary : string;
  primaryText : string;
  dangerBg : string;
  dangerBorder : string;
  dangerText : string
}.
End Theme.

Definition getTheme (isDark : bool) : Theme.t :=
  if isDark then
    Theme.mk "#0B0F14" "#121823" "#EAF0F6" "#9AA7B2" "#223044" "#162233"
      "#4F8CFF" "#071018" "#2A1114" "#5B1E25" "#FFB4BD"
  else
    Theme.mk "#F4F6F9" "#FFFFFF" "#0B1220" "#5E6B78" "#E2E8F0" "#EEF4FF"
      "#2563EB" "#FFFFFF" "#FFECEF" "#FFC7D0" "#B4232C".

Record PillStyle : Type := {
  backgroundColor : string;
  borderColor : string
}.

Definition pillStyle (t : Theme.t) (status : string) : PillStyle :=
  if String.eqb status "ALERTA"
  then {| backgroundColor := Theme.dangerBg t; borderColor := Theme.dangerBorder t |}
  else {| backgroundColor := Theme.pillBg t; borderColor := Theme.border t |}.

(** The [color] of [pillTextStyle]; the alert line is given the same one. *)
Definition pillTextStyle (t : Theme.t) (status : string) : string :=
  if String.eqb status "ALERTA" then Theme.dangerText t else Theme.text t.

(** The values a [Field] is given: [string | number | null | undefined]. *)
Inductive Value : Type :=
| VUndefined
| VNull
| VString (s : string)
| VNumber (x : Num.number).

(** An optional property of the event, as read from the object. *)
Definition prop_str (o : option string) : Value :=
  match o with Some s => VString s | None => VUndefined end.

Definition prop_num (o : option Num.number) : Value :=
  match o with Some x => VNumber x | None => VUndefined end.

(** [a ?? b] *)
Definition coalesce (a b : Value) : Value :=
  match a with
  | VUndefined | VNull => b
  | _ => a
  end.

Section Card.

Variable rt : Runtime.

(** [String(value)] *)
Definition String_of (value : Value) : string :=
  match value with
  | VUndefined => "undefined"
  | VNull => "null"
  | VString s => s
  | VNumber x => Number_toString rt x
  end.

(** [Field]: nothing for [undefined], [null] and the empty string, else the
    label and the value as text. *)
Definition Field (label : string) (value : Value) : option (string * string) :=
  match value with
  | VUndefined | VNull | VString "" => None
  | _ => Some (label, String_of value)
  end.

(** The [Field] elements under the alert line, in order, with their props. *)
Definition fields (e : AlertEvent.t) : list (string * Value) :=
  [ ("Tipo", VString (AlertEvent.type e));
    ("Causa", prop_str (AlertEvent.cause e));
    ("Carretera", prop_str (AlertEvent.road e));
    ("PK", coalesce (prop_str (AlertEvent.pkText e))
             (match AlertEvent.pkKm e with
              | Some km => VNumber km
              | None => VNull
              end));
    ("Sentido", prop_str (AlertEvent.direction e));
    ("Orientación", prop_str (AlertEvent.orientation e));
    ("Desde", prop_str (AlertEvent.startTime e));
    ("Provincia", prop_str (AlertEvent.province e));
    ("Municipio", prop_str (AlertEvent.municipality e));
    ("Fuente", prop_str (AlertEvent.source e));
    ("Coords", VString (Num.toFixed (Number_toString rt) (AlertEvent.lat e) 5 ++ ", "
                      ++ Num.toFixed (Number_toString rt) (AlertEvent.lon e) 5));
    ("Severidad", coalesce (prop_num (AlertEvent.severity e)) VNull) ].

(** [{e && (...)}]: the rows that are shown, as (label, text). *)
Definition details (lastHit : option AlertHit) : list (string * string) :=
  match lastHit with
  | Some hit => omap (fun '(label, value) => Field label value) (fields (event hit))
  | None => []
  end.

End Card.

(** ** More to observe *)

Definition is_audio (op : Op) : bool :=
  match op with CreateSound | Replay _ => true | _ => false end.

Definition is_json (op : Op) : bool :=
  match op with Json _ => true | _ => false end.

Section Throwing.

Context {St : Type}.

(** The promise of the call is never rejected. *)
Fixpoint never_throws {A : Type} (m : Async St A) : Prop :=
  match m with
  | Ret _ => True
  | Throw _ => False
  | Get k => forall s, never_throws (k s)
  | Put _ k => never_throws k
  | Await op k => forall r, never_throws (k r)
  end.

End Throwing.

(** No suspended call will be rejected, whatever its promises do. *)
Definition safe {rv : Revision} (w : World rv) : Prop :=
  forall i t, tasks w !! i = Some t -> forall r, never_throws (resume t r).

(** An alert on a road, with an empty [pkText] and a [pkKm]. *)
Definition sample_roadworks : AlertHit :=
  mkHit
    (AlertEvent.mk "a1" "OBRAS" None None (Some "A-6") (Some "")
       (Some (Num.of_Z 12)) None None None None None None
       (Num.of_Z 40) (Num.of_Z (-3)) None)
    (Num.of_Z 1500).

(** As [base], with [sound] as the sound that is created. *)
Definition sample_sound (sound : Sound) (base : Oracle) : Oracle :=
  fun op =>
    match op with
    | CreateSound => Fulfilled sound
    | op => base op
    end.

(** * Properties *)

(** ** Rounding in [toFixed] *)

Lemma pow2_pos (e : Z) : (0 < Num.pow2 e)%Q.
Proof.
  destruct e as [|p|p]; unfold Num.pow2.
  - reflexivity.
  - unfold Qlt; cbn. rewrite Z.mul_1_r. rewrite Z.pow_pos_fold. lia.
  - reflexivity.
Qed.

Lemma magnitude_nonneg (x : Num.number) : (0 <= Num.magnitude x)%Q.
Proof.
  destruct x as [s| s | |s m e]; cbn; try apply Qle_refl.
  apply Qmult_le_0_compat.
  - unfold Qle; cbn; lia.
  - apply Qlt_le_weak, pow2_pos.
Qed.

Lemma nearest_nonneg (f : nat) (x : Q) : (0 <= x)%Q -> (0 <= Num.nearest f x)%Z.
Proof.
  intros Hx. unfold Num.nearest.
  change 0%Z with (Qfloor 0). apply Qfloor_resp_le.
  assert (0 <= inject_Z (10 ^ Z.of_nat f))%Q.
  { change 0%Q with (inject_Z 0). rewrite <- Zle_Qle. lia. }
  assert (0 <= x * inject_Z (10 ^ Z.of_nat f))%Q by (apply Qmult_le_0_compat; assumption).
  lra.
Qed.

Lemma nearest_close (f : nat) (x : Q) :
  (Qabs (inject_Z (Num.nearest f x) - x * inject_Z (10 ^ Z.of_nat f)) <= 1 # 2)%Q.
Proof.
  unfold Num.nearest.
  set (y := (x * inject_Z (10 ^ Z.of_nat f))%Q).
  pose proof (Qfloor_le (y + (1 # 2))) as Hlo.
  pose proof (Qlt_floor (y + (1 # 2))) as Hhi.
  rewrite inject_Z_plus in Hhi. change (inject_Z 1) with 1%Q in Hhi.
  apply Qabs_Qle_condition. split; lra.
Qed.

(** ** One call of [tick], run to its end *)

Arguments alerts_url : simpl never.
Arguments Num.digits : simpl never.
Arguments Num.toFixed : simpl never.
Arguments append : simpl never.

(** Splits a goal about [exec (tick rt rv) env s] into the paths of [tick],
    one for each way the awaited promises can settle. *)
Ltac tick_paths env s :=
  destruct s as [? ? ? ? ? [?sound|]];
  unfold tick, beep; cbn;
  repeat match goal with
    | |- context [env ?op] =>
        let E := fresh "E" in destruct (env op) as [?|?] eqn:E; cbn
    | |- context [negb (ok ?r)] =>
        let E := fresh "Hok" in destruct (ok r) eqn:E; cbn
    | |- context [match ?l with [] => _ | _ :: _ => _ end] =>
        is_var l; destruct l; cbn
    end;
  repeat match goal with
    | u : Answer (Replay _) |- _ => destruct u
    end.

(** As [tick_paths], for goals in which every [env op] is in sight at once:
    no equation is kept. *)
Ltac tick_blind env s :=
  destruct s as [? ? ? ? ? [?sound|]];
  unfold tick, beep; cbn;
  repeat match goal with
    | |- context [env ?op] => destruct (env op) as [?|?]; cbn
    | |- context [negb (ok ?r)] => destruct (ok r); cbn
    | |- context [match ?l with [] => _ | _ :: _ => _ end] =>
        is_var l; destruct l; cbn
    end;
  repeat match goal with
    | u : Answer (Replay _) |- _ => destruct u
    end.

Arguments written_after_stop : simpl never.

(** Follows the one path of [tick] that the hypotheses on [env] select. *)
Ltac tick_along :=
  unfold tick, beep; cbn;
  repeat match goal with
    | H : ?env ?op = _ |- context [?env ?op] => rewrite H; cbn
    | H : ok ?r = _ |- context [ok ?r] => rewrite H; cbn
    end.

Section TickRuns.

Variable rt : Runtime.
Variable rv : Revision.
Implicit Types (env : Oracle) (s : HomeScreen (Last rv)).

Lemma tick_settles env s : outcome (exec (tick rt rv) env s) = Fulfilled tt.
Proof. tick_paths env s; reflexivity. Qed.

Lemma tick_busy env s : busy (final (exec (tick rt rv) env s)) = false.
Proof. tick_paths env s; reflexivity. Qed.

Lemma tick_keeps_session env s :
  driving (final (exec (tick rt rv) env s)) = driving s
  /\ timerRef (final (exec (tick rt rv) env s)) = timerRef s.
Proof. tick_paths env s; split; reflexivity. Qed.

Lemma tick_http_error env s pos res :
  env GetCurrentPosition = Fulfilled pos ->
  env (Fetch (alerts_url rt rv (latitude (coords pos)) (longitude (coords pos))))
    = Fulfilled res ->
  ok res = false ->
  final (exec (tick rt rv) env s)
  = mkScreen (driving s) ("Backend " ++ Num.digits (res_status res)) false
      (lastHit s) (timerRef s) (soundRef s).
Proof. intros Hpos Hres Hok. destruct s. tick_along. reflexivity. Qed.

Lemma tick_no_hits env s pos res :
  env GetCurrentPosition = Fulfilled pos ->
  env (Fetch (alerts_url rt rv (latitude (coords pos)) (longitude (coords pos))))
    = Fulfilled res ->
  ok res = true ->
  env (Json res) = Fulfilled [] ->
  final (exec (tick rt rv) env s)
  = mkScreen (driving s) "Sin incidencias cercanas" false (no_alert rv)
      (timerRef s) (soundRef s).
Proof. intros Hpos Hres Hok Hjson. destruct s. tick_along. reflexivity. Qed.

Lemma tick_hit env s pos res hit rest :
  env GetCurrentPosition = Fulfilled pos ->
  env (Fetch (alerts_url rt rv (latitude (coords pos)) (longitude (coords pos))))
    = Fulfilled res ->
  ok res = true ->
  env (Json res) = Fulfilled (hit :: rest) ->
  let s' := final (exec (tick rt rv) env s) in
  driving s' = driving s /\ status s' = "ALERTA" /\ busy s' = false
  /\ lastHit s' = of_hit rv hit /\ timerRef s' = timerRef s.
Proof.
  intros Hpos Hres Hok Hjson. destruct s as [? ? ? ? ? [sound|]]; tick_along.
  - destruct (env (Replay sound)); cbn; repeat split.
  - destruct (env CreateSound) as [sound|]; cbn; [|repeat split].
    destruct (env (Replay sound)); cbn; repeat split.
Qed.

End TickRuns.


(** ** The claims about one [tick] *)

(** C1.  When the backend answers with success and a non-empty list of hits,
    [tick] leaves [lastHit] equal to the first hit and the status "ALERTA";
    the line shown ends with [(distanceMeters / 1000).toFixed(1)] followed by
    " km", and for a distance below 10^21 that text is the decimal writing of
    the integer [n] of tenths nearest to the quotient; 1500 m is shown as
    "1.5 km". *)
Theorem tick_alert_shows_first_hit
    (rt : Runtime) (env : Oracle) (s : HomeScreen (option AlertHit))
    (pos : LocationObject) (res : Response) (hit : AlertHit) (rest : list AlertHit) :
  env GetCurrentPosition = Fulfilled pos ->
  env (Fetch (alerts_url rt (detail rt) (latitude (coords pos)) (longitude (coords pos))))
    = Fulfilled res ->
  ok res = true ->
  env (Json res) = Fulfilled (hit :: rest) ->
  let s' := final (exec (tick rt (detail rt)) env s) in
  let x := Num.div (distanceMeters hit) (Num.of_Z 1000) in
  let shown_km := Num.toFixed (Number_toString rt) x 1 in
  lastHit s' = Some hit
  /\ status s' = "ALERTA"
  /\ subline rt (lastHit s')
     = headline (Some hit) ++ " (" ++ AlertEvent.id (event hit) ++ ") a "
         ++ shown_km ++ " km"
  /\ (Num.is_finite x = true -> (Num.magnitude x < Num.ten21)%Q ->
      exists n : N,
        shown_km = (if Num.is_negative x then "-" else "")
                     ++ Num.place_point 1 (Num.digits n)
        /\ (Qabs (inject_Z (Z.of_N n) - Num.magnitude x * 10) <= 1 # 2)%Q)
  /\ (distanceMeters hit = Num.of_Z 1500 -> shown_km ++ " km" = "1.5 km").
Proof.
  intros Hpos Hres Hok Hjson s' x shown_km.
  destruct (tick_hit rt (detail rt) env s pos res hit rest Hpos Hres Hok Hjson)
    as (_ & Hstatus & _ & Hlast & _).
  fold s' in Hstatus, Hlast. change (lastHit s' = Some hit) in Hlast.
  repeat split; try assumption.
  - rewrite Hlast. reflexivity.
  - intros Hfin Hsmall.
    exists (Z.to_N (Num.nearest 1 (Num.magnitude x))). split.
    + unfold shown_km, Num.toFixed. rewrite Hfin. cbn [negb].
      destruct (Qle_bool Num.ten21 (Num.magnitude x)) eqn:Hbig; [|reflexivity].
      apply Qle_bool_iff in Hbig. exfalso. apply (Qlt_not_le _ _ Hsmall Hbig).
    + rewrite Z2N.id by (apply nearest_nonneg, magnitude_nonneg).
      apply (nearest_close 1).
  - intros Hd. subst shown_km x. rewrite Hd. vm_compute. reflexivity.
Qed.

Lemma tick_alert_shows_first_hit_witness :
  let s' := final (exec (tick Sample.rt (detail Sample.rt))
                     (Sample.backend 200 [Sample.incident 1500])
                     (mounted (detail Sample.rt))) in
  let x := Num.div (distanceMeters (Sample.incident 1500)) (Num.of_Z 1000) in
  lastHit s' = Some (Sample.incident 1500)
  /\ status s' = "ALERTA"
  /\ subline Sample.rt (lastHit s') = "Incident (a1) a 1.5 km"
  /\ exists n : N,
       Num.toFixed Sample.toString x 1 = Num.place_point 1 (Num.digits n)
       /\ (Qabs (inject_Z (Z.of_N n) - Num.magnitude x * 10) <= 1 # 2)%Q.
Proof.
  pose proof (tick_alert_shows_first_hit Sample.rt
                (Sample.backend 200 [Sample.incident 1500])
                (mounted (detail Sample.rt)) Sample.here {| res_status := 200 |}
                (Sample.incident 1500) [] eq_refl eq_refl eq_refl eq_refl)
    as (Hlast & Hstatus & Hline & Hround & _).
  cbv zeta. refine (conj Hlast (conj Hstatus (conj _ _))).
  - rewrite Hline. vm_compute. reflexivity.
  - exact (Hround eq_refl eq_refl).
Defined.

(** C2.  When the backend answers with a status outside 200-299, [tick]
    leaves the status "Backend " followed by the status code and [lastHit] as
    it was; a second [tick] that fails with the same code leaves the state as
    the first one left it.  For the code 500 the status is "Backend 500". *)
Theorem tick_http_failure_keeps_last_alert
    (rt : Runtime) (rv : Revision) (env env' : Oracle) (s : HomeScreen (Last rv))
    (pos pos' : LocationObject) (res res' : Response) :
  env GetCurrentPosition = Fulfilled pos ->
  env (Fetch (alerts_url rt rv (latitude (coords pos)) (longitude (coords pos))))
    = Fulfilled res ->
  ok res = false ->
  env' GetCurrentPosition = Fulfilled pos' ->
  env' (Fetch (alerts_url rt rv (latitude (coords pos')) (longitude (coords pos'))))
    = Fulfilled res' ->
  res_status res' = res_status res ->
  let s1 := final (exec (tick rt rv) env s) in
  status s1 = "Backend " ++ Num.digits (res_status res)
  /\ lastHit s1 = lastHit s
  /\ driving s1 = driving s
  /\ final (exec (tick rt rv) env' s1) = s1
  /\ (res_status res = 500%N -> status s1 = "Backend 500").
Proof.
  intros Hpos Hres Hok Hpos' Hres' Hsame s1.
  assert (Hok' : ok res' = false) by (unfold ok in *; rewrite Hsame; exact Hok).
  subst s1. rewrite (tick_http_error rt rv env s pos res Hpos Hres Hok).
  rewrite (tick_http_error rt rv env' _ pos' res' Hpos' Hres' Hok').
  cbn. rewrite Hsame. repeat split.
  intros H500. rewrite H500. reflexivity.
Qed.

Lemma tick_http_failure_keeps_last_alert_witness :
  let s0 := with_lastHit (Some (Sample.incident 1500)) (mounted (detail Sample.rt)) in
  let s1 := final (exec (tick Sample.rt (detail Sample.rt)) (Sample.backend 500 []) s0) in
  status s1 = "Backend 500"
  /\ lastHit s1 = Some (Sample.incident 1500)
  /\ final (exec (tick Sample.rt (detail Sample.rt)) (Sample.backend 500 []) s1) = s1.
Proof.
  pose proof (tick_http_failure_keeps_last_alert Sample.rt (detail Sample.rt)
                (Sample.backend 500 []) (Sample.backend 500 [])
                (with_lastHit (Some (Sample.incident 1500)) (mounted (detail Sample.rt)))
                Sample.here Sample.here {| res_status := 500 |} {| res_status := 500 |}
                eq_refl eq_refl eq_refl eq_refl eq_refl eq_refl)
    as (_ & Hlast & _ & Hagain & H500).
  cbv zeta. exact (conj (H500 eq_refl) (conj Hlast Hagain)).
Defined.

(** C3.  When the backend answers with success and an empty list, [tick]
    leaves the last alert absent ([null] in the detailed revision, the
    placeholder "-" in the other) and the status "Sin incidencias cercanas",
    whatever position was queried. *)
Theorem tick_empty_clears_last_alert
    (rt : Runtime) (rv : Revision) (env : Oracle) (s : HomeScreen (Last rv))
    (pos : LocationObject) (res : Response) :
  env GetCurrentPosition = Fulfilled pos ->
  env (Fetch (alerts_url rt rv (latitude (coords pos)) (longitude (coords pos))))
    = Fulfilled res ->
  ok res = true ->
  env (Json res) = Fulfilled [] ->
  let s' := final (exec (tick rt rv) env s) in
  lastHit s' = no_alert rv
  /\ status s' = "Sin incidencias cercanas"
  /\ no_alert (detail rt) = None
  /\ subline rt (no_alert (detail rt)) = "—"
  /\ no_alert (tabs rt) = "-".
Proof.
  intros Hpos Hres Hok Hjson s'. subst s'.
  rewrite (tick_no_hits rt rv env s pos res Hpos Hres Hok Hjson).
  repeat split.
Qed.

Lemma tick_empty_clears_last_alert_witness :
  let s0 := with_lastHit (Some (Sample.incident 1500)) (mounted (detail Sample.rt)) in
  let s' := final (exec (tick Sample.rt (detail Sample.rt)) (Sample.backend 200 []) s0) in
  lastHit s' = None /\ status s' = "Sin incidencias cercanas".
Proof.
  pose proof (tick_empty_clears_last_alert Sample.rt (detail Sample.rt)
                (Sample.backend 200 [])
                (with_lastHit (Some (Sample.incident 1500)) (mounted (detail Sample.rt)))
                Sample.here {| res_status := 200 |} eq_refl eq_refl eq_refl eq_refl)
    as (Hlast & Hstatus & _).
  cbv zeta. exact (conj Hlast Hstatus).
Defined.

(** C7.  [tick] sets [busy] before its first [await], and whichever way the
    awaited promises settle, [busy] is false when [tick] has finished. *)
Theorem tick_clears_busy
    (rt : Runtime) (rv : Revision) (env : Oracle) (s : HomeScreen (Last rv)) :
  busy (fst (advance (tick rt rv) s)) = true
  /\ busy (final (exec (tick rt rv) env s)) = false.
Proof.
  split.
  - destruct s; reflexivity.
  - apply tick_busy.
Qed.

(** C9.  Every [tick] asks for the position exactly once.  When the position
    is found it sends exactly one request, to
    [BACKEND_BASE_URL/alerts?lat=..&lon=..&radiusMeters=2000], followed by
    [&demo=true] in the revision under [app/(tabs)] and by nothing in the
    other; when it is not found it sends none. *)
Theorem tick_sends_one_request
    (rt : Runtime) (rv : Revision) (env : Oracle) (s : HomeScreen (Last rv)) :
  let ops := issued (exec (tick rt rv) env s) in
  List.filter is_location ops = [GetCurrentPosition]
  /\ (forall e, env GetCurrentPosition = Rejected e -> List.filter is_fetch ops = [])
  /\ (forall pos, env GetCurrentPosition = Fulfilled pos ->
      List.filter is_fetch ops
      = [Fetch (BACKEND_BASE_URL rt ++ "/alerts?lat=" ++ show rt (latitude (coords pos))
                  ++ "&lon=" ++ show rt (longitude (coords pos))
                  ++ "&radiusMeters=2000" ++ query_tail rv)])
  /\ query_tail (detail rt) = ""
  /\ query_tail (tabs rt) = "&demo=true".
Proof.
  cbv zeta.
  tick_paths env s;
    (split; [reflexivity|]);
    (split; [intros; first [congruence | reflexivity]|]);
    (split; [|split; reflexivity]);
    intros pos' Hpos'; try congruence;
    match goal with
    | E : env GetCurrentPosition = Fulfilled ?a |- _ =>
        assert (pos' = a) by congruence; subst pos'
    end; reflexivity.
Qed.

Lemma tick_sends_one_request_witness :
  issued (exec (tick Sample.rt (detail Sample.rt))
            (Sample.backend 200 []) (mounted (detail Sample.rt)))
  = [GetCurrentPosition;
     Fetch "http://10.0.2.2:8080/api/alerts?lat=40&lon=-3&radiusMeters=2000";
     Json {| res_status := 200 |}]
  /\ List.filter is_fetch
       (issued (exec (tick Sample.rt (tabs Sample.rt))
                  (Sample.backend 200 []) (mounted (tabs Sample.rt))))
     = [Fetch "http://10.0.2.2:8080/api/alerts?lat=40&lon=-3&radiusMeters=2000&demo=true"].
Proof.
  split.
  - vm_compute. reflexivity.
  - destruct (tick_sends_one_request Sample.rt (tabs Sample.rt)
                (Sample.backend 200 []) (mounted (tabs Sample.rt)))
      as (_ & _ & Hfetch & _).
    rewrite (Hfetch Sample.here eq_refl). vm_compute. reflexivity.
Defined.



(** ** Calls on the event loop *)

Section Loop.

Context {rv : Revision}.
Implicit Types (w : World rv) (s : HomeScreen (Last rv)) (env : Oracle).
Implicit Types (m : Async (HomeScreen (Last rv)) unit).
Implicit Types (p : Parked (HomeScreen (Last rv)) unit).

Lemma park_screen i s p w : screen (park i (s, p) w) = s.
Proof. destruct p as [[]|]; reflexivity. Qed.

Lemma park_timers i s p w :
  timers (park i (s, p) w) = timers w
  /\ nextTimer (park i (s, p) w) = nextTimer w.
Proof. destruct p as [[]|]; split; reflexivity. Qed.

Lemma settle_timers i env w :
  timers (settle i env w) = timers w
  /\ nextTimer (settle i env w) = nextTimer w.
Proof.
  unfold settle. destruct (tasks w !! i) as [t|]; [|split; reflexivity].
  destruct (advance _ _) as [s p]. apply park_timers.
Qed.

Lemma settle_waiting i env s op k w :
  settle i env (park i (s, Waiting op k) w)
  = park i (advance (k (env op)) s) (park i (s, Waiting op k) w).
Proof.
  unfold settle. cbn [park tasks]. rewrite lookup_insert_eq. reflexivity.
Qed.

Lemma settle_finished i env s r w :
  settle i env (park i (s, Finished r) w) = park i (s, Finished r) w.
Proof.
  unfold settle. destruct r; cbn [park tasks]; rewrite lookup_delete_eq; reflexivity.
Qed.

Lemma settles_finished n i env s r w :
  settles n i env (park i (s, Finished r) w) = park i (s, Finished r) w.
Proof.
  induction n as [|n IH]; [reflexivity|].
  cbn [settles]. rewrite settle_finished. exact IH.
Qed.

(** Resuming a call [j] times on the loop is [after j]. *)
Lemma settles_after i env j :
  forall m s w,
  exists w',
    settles j i env (park i (advance m s) w) = park i (after j m env s) w'
    /\ timers w' = timers w /\ nextTimer w' = nextTimer w.
Proof.
  induction j as [|j IH]; intros m s w.
  - exists w. repeat split.
  - cbn [settles after]. destruct (advance m s) as [s' [r|op k]].
    + exists w. rewrite settle_finished, settles_finished. repeat split.
    + rewrite settle_waiting.
      destruct (IH (k (env op)) s' (park i (s', Waiting op k) w))
        as (w' & Heq & Ht & Hn).
      exists w'. split; [exact Heq|]. rewrite Ht, Hn. apply park_timers.
Qed.

(** A call that is left alone runs on the loop as [exec] says. *)
Lemma settles_exec i env m :
  forall s w n,
  (length (issued (exec m env s)) <= n)%nat ->
  let w' := settles n i env (park i (advance m s) w) in
  screen w' = final (exec m env s)
  /\ timers w' = timers w
  /\ requests w' = (requests w ++ issued (exec m env s))%list
  /\ unhandled w'
     = (unhandled w ++ match outcome (exec m env s) with
                       | Fulfilled _ => []
                       | Rejected e => [e]
                       end)%list
  /\ tasks w' !! i = None.
Proof.
  induction m as [a|e|k IH|f k IH|op k IH]; intros s w n Hn; cbn [advance exec].
  - cbv zeta. rewrite settles_finished. cbn. rewrite !app_nil_r, lookup_delete_eq.
    repeat split.
  - cbv zeta. rewrite settles_finished. cbn. rewrite !app_nil_r, lookup_delete_eq.
    repeat split.
  - apply IH, Hn.
  - apply IH, Hn.
  - cbn [exec] in Hn. specialize (IH (env op) s (park i (s, Waiting op k) w)).
    destruct (exec (k (env op)) env s) as [s' r ops].
    cbn [issued length final outcome] in *. destruct n as [|n]; [lia|].
    cbv zeta. cbn [settles]. rewrite settle_waiting.
    destruct (IH n ltac:(lia)) as (Hs & Ht & Hr & Hu & Hk).
    rewrite Hs, Ht, Hr, Hu. cbn. rewrite <- app_assoc.
    repeat split. exact Hk.
Qed.

(** [stopDriving] touches the component and the timers, not the calls. *)
Lemma stopDriving_park i s p w :
  stopDriving (park i (s, p) w)
  = park i (stopped s, p)
      (match timerRef s with
       | Some t => clearInterval t w
       | None => w
       end).
Proof.
  unfold stopDriving, update, with_screen, stopped.
  destruct s as [? ? ? ? [t|] ?], p as [[]|]; reflexivity.
Qed.

Lemma advance_rest_of s p : advance (rest_of p) s = (s, p).
Proof. destruct p as [[]|]; reflexivity. Qed.

(** A call is started, [j] of its promises settle, [stopDriving] runs, and
    the call is then left to finish: it finishes from the state that
    [stopDriving] left, with the writes of its remaining steps. *)
Lemma stop_in_flight i env m j n w :
  i = nextTask w ->
  let sj := fst (after j m env (screen w)) in
  let pj := snd (after j m env (screen w)) in
  (length (issued (exec (rest_of pj) env (stopped sj))) <= n)%nat ->
  screen (settles n i env (stopDriving (settles j i env (call m w))))
  = final (exec (rest_of pj) env (stopped sj)).
Proof.
  intros -> sj pj Hn. unfold call.
  destruct (settles_after (nextTask w) env j m (screen w)
              (mkWorld (screen w) (timers w) (nextTimer w) (tasks w)
                 (Pos.succ (nextTask w)) (requests w) (unhandled w)))
    as (w' & -> & _).
  rewrite (surjective_pairing (after j m env (screen w))). fold sj pj.
  rewrite stopDriving_park, <- (advance_rest_of (stopped sj) pj).
  apply settles_exec, Hn.
Qed.

End Loop.

(** ** A tick in flight when the session is stopped *)

Lemma stopDriving_screen {rv : Revision} (w : World rv) :
  screen (stopDriving w) = stopped (screen w).
Proof.
  unfold stopDriving, update, with_screen, stopped.
  destruct (screen w) as [? ? ? ? [t|] ?]; reflexivity.
Qed.

(** The rest of a [tick] after [j] settlements, run from a stopped state,
    compared with the same [tick] run without interruption. *)
Lemma tick_resumed_after_stop
    (rt : Runtime) (rv : Revision) (env : Oracle) (j : nat) (s : HomeScreen (Last rv)) :
  let sj := fst (after j (tick rt rv) env s) in
  let pj := snd (after j (tick rt rv) env s) in
  let late := exec (rest_of pj) env (stopped sj) in
  (length (issued late) <= 5)%nat
  /\ written_after_stop j (exec (tick rt rv) env s) late.
Proof.
  cbv zeta.
  destruct j as [|[|[|[|[|[|j]]]]]]; tick_blind env s;
    unfold written_after_stop; cbn;
    repeat match goal with
      | |- _ /\ _ => split
      end;
    first [reflexivity | lia | discriminate].
Qed.

(** A run is its first stretch, up to the first await, and then the run of
    what the answer resumes. *)
Lemma exec_advance {St A : Type} (m : Async St A) (env : Oracle) (s : St) :
  exec m env s
  = match advance m s with
    | (s', Finished r) => mkRun s' r []
    | (s', Waiting op k) =>
        let '(mkRun s'' r ops) := exec (k (env op)) env s' in
        mkRun s'' r (op :: ops)
    end.
Proof.
  revert s. induction m as [a|e|k IH|g k IH|op k IH]; intros s; cbn.
  - reflexivity.
  - reflexivity.
  - apply IH.
  - apply IH.
  - reflexivity.
Qed.

(** The operation a call waits for after [j] settlements is the [j]-th one
    of its run. *)
Lemma after_awaits {rv : Revision} (env : Oracle) (j : nat) :
  forall (m : Async (HomeScreen (Last rv)) unit) (s : HomeScreen (Last rv)),
    nth_error (issued (exec m env s)) j
    = match snd (after j m env s) with
      | Waiting op _ => Some op
      | Finished _ => None
      end.
Proof.
  induction j as [|j IH]; intros m s; rewrite exec_advance; cbn [after].
  - destruct (advance m s) as [s' [r|op k]]; [reflexivity|].
    destruct (exec (k (env op)) env s'). reflexivity.
  - destruct (advance m s) as [s' [r|op k]]; [reflexivity|].
    specialize (IH (k (env op)) s').
    destruct (exec (k (env op)) env s'). exact IH.
Qed.

(** On the loop, the call is suspended on that operation. *)
Lemma settles_awaits {rv : Revision} (i : positive) (env : Oracle) (j : nat)
    (m : Async (HomeScreen (Last rv)) unit) (w : World rv) :
  i = nextTask w ->
  let ws := stopDriving (settles j i env (call m w)) in
  screen ws = stopped (fst (after j m env (screen w)))
  /\ match nth_error (issued (exec m env (screen w))) j with
     | Some op => exists t, tasks ws !! i = Some t /\ awaited t = op
     | None => tasks ws !! i = None
     end.
Proof.
  intros ->. cbv zeta. rewrite after_awaits. unfold call.
  destruct (settles_after (nextTask w) env j m (screen w)
              (mkWorld (screen w) (timers w) (nextTimer w) (tasks w)
                 (Pos.succ (nextTask w)) (requests w) (unhandled w)))
    as (w' & -> & _).
  destruct (after j m env (screen w)) as [s p]. cbn [fst snd].
  rewrite stopDriving_park. split; [apply park_screen|].
  destruct p as [[a|e]|op k]; cbn [park tasks].
  - apply lookup_delete_eq.
  - apply lookup_delete_eq.
  - eexists. split; [apply lookup_insert_eq | reflexivity].
Qed.

(** Until the body of the response has arrived, a [tick] has written
    neither the last alert nor the sound. *)
Lemma tick_writes_late
    (rt : Runtime) (rv : Revision) (env : Oracle) (j : nat) (s : HomeScreen (Last rv)) :
  match snd (after j (tick rt rv) env s) with
  | Waiting GetCurrentPosition _ | Waiting (Fetch _) _ | Waiting (Json _) _ =>
      lastHit (fst (after j (tick rt rv) env s)) = lastHit s
      /\ soundRef (fst (after j (tick rt rv) env s)) = soundRef s
  | _ => True
  end.
Proof.
  destruct j as [|[|[|[|[|[|j]]]]]]; tick_blind env s; first [exact I | split; reflexivity].
Qed.

(** Every [tick] first waits for the position. *)
Lemma tick_first_await
    (rt : Runtime) (rv : Revision) (env : Oracle) (s : HomeScreen (Last rv)) :
  nth_error (issued (exec (tick rt rv) env s)) 0 = Some GetCurrentPosition.
Proof. rewrite exec_advance. cbn. destruct (exec _ _ _). reflexivity. Qed.

(** A [tick] that finds a hit has waited for the position, the response and
    its body, in that order, before the sound. *)
Lemma tick_hit_awaits
    (rt : Runtime) (rv : Revision) (env : Oracle) (s : HomeScreen (Last rv))
    (pos : LocationObject) (res : Response) (hit : AlertHit) (rest : list AlertHit) :
  env GetCurrentPosition = Fulfilled pos ->
  env (Fetch (alerts_url rt rv (latitude (coords pos)) (longitude (coords pos))))
    = Fulfilled res ->
  ok res = true ->
  env (Json res) = Fulfilled (hit :: rest) ->
  exists audio,
    issued (exec (tick rt rv) env s)
    = GetCurrentPosition
        :: Fetch (alerts_url rt rv (latitude (coords pos)) (longitude (coords pos)))
        :: Json res :: audio.
Proof.
  intros Hpos Hres Hok Hjson. destruct s as [? ? ? ? ? [sound|]]; tick_along.
  - destruct (env (Replay sound)); cbn; eexists; reflexivity.
  - destruct (env CreateSound) as [sound|]; cbn; [|eexists; reflexivity].
    destruct (env (Replay sound)); cbn; eexists; reflexivity.
Qed.

(** Settling nothing leaves the loop as it is. *)
Lemma settles_none {rv : Revision} (i : positive) (env : Oracle) (w : World rv) :
  settles 0 i env w = w.
Proof. reflexivity. Qed.

(** On the loop: the tick of call [nextTask w] is left to finish after
    [stopDriving] ran. *)
Lemma tick_late_writes
    (rt : Runtime) (rv : Revision) (w : World rv) (env : Oracle) (j : nat) :
  let alone := exec (tick rt rv) env (screen w) in
  let ws := stopDriving (settles j (nextTask w) env (call (tick rt rv) w)) in
  let w' := settles 5 (nextTask w) env ws in
  driving (screen w') = false
  /\ busy (screen w') = false
  /\ lastHit (screen w') = lastHit (final alone)
  /\ soundRef (screen w') = soundRef (final alone)
  /\ match nth_error (issued alone) j with
     | Some GetCurrentPosition | Some (Fetch _) | Some (Json _) =>
         status (screen w') = status (final alone)
         /\ status (screen w') <> "Parado"
     | Some CreateSound | Some (Replay _) | None =>
         status (screen w') = "Parado"
     end.
Proof.
  cbv zeta.
  destruct (tick_resumed_after_stop rt rv env j (screen w)) as (Hlen & Hrest).
  rewrite (stop_in_flight (nextTask w) env (tick rt rv) j 5 w eq_refl Hlen).
  exact Hrest.
Qed.

(** When [stopDriving] runs, a tick that waits for the position, the
    response or its body has not written the last alert. *)
Lemma tick_unwritten_at_stop
    (rt : Runtime) (rv : Revision) (w : World rv) (env : Oracle) (j : nat) :
  let ws := stopDriving (settles j (nextTask w) env (call (tick rt rv) w)) in
  match nth_error (issued (exec (tick rt rv) env (screen w))) j with
  | Some GetCurrentPosition | Some (Fetch _) | Some (Json _) =>
      lastHit (screen ws) = lastHit (screen w)
  | _ => True
  end.
Proof.
  cbv zeta.
  rewrite (proj1 (settles_awaits (nextTask w) env j (tick rt rv) w eq_refl)).
  rewrite after_awaits.
  pose proof (tick_writes_late rt rv env j (screen w)) as H.
  destruct (snd (after j (tick rt rv) env (screen w))) as [r|[| | | |] k];
    first [exact I | exact (proj1 H)].
Qed.

(** The session is stopped before the position arrives: the tick is in
    flight, and when it finishes the status is its own, never "Parado". *)
Lemma tick_stopped_at_once
    (rt : Runtime) (rv : Revision) (w : World rv) (env : Oracle) :
  let i := nextTask w in
  let alone := exec (tick rt rv) env (screen w) in
  let w0 := settles 5 i env (stopDriving (call (tick rt rv) w)) in
  (exists t, tasks (stopDriving (call (tick rt rv) w)) !! i = Some t
             /\ awaited t = GetCurrentPosition)
  /\ status (screen (stopDriving (call (tick rt rv) w))) = "Parado"
  /\ status (screen w0) = status (final alone)
  /\ status (screen w0) <> "Parado"
  /\ lastHit (screen w0) = lastHit (final alone).
Proof.
  cbv zeta.
  pose proof (tick_first_await rt rv env (screen w)) as Hfirst.
  pose proof (proj2 (settles_awaits (nextTask w) env 0 (tick rt rv) w eq_refl)) as Hf.
  pose proof (tick_late_writes rt rv w env 0) as Hlate.
  cbv zeta in Hf, Hlate.
  rewrite settles_none in Hf, Hlate.
  rewrite Hfirst in Hf, Hlate.
  destruct Hlate as (_ & _ & Hl & _ & Hsame & Hnot).
  split; [exact Hf|]. split; [rewrite stopDriving_screen; reflexivity|].
  split; [exact Hsame|]. split; [exact Hnot | exact Hl].
Qed.

(** The session is stopped before the body of a response with a hit has
    arrived: the tick is in flight with no last alert written, and it ends
    with the alert raised while [driving] is false. *)
Lemma tick_stopped_before_alert
    (rt : Runtime) (rv : Revision) (w : World rv) (env : Oracle) (j : nat)
    (pos : LocationObject) (res : Response) (hit : AlertHit) (rest : list AlertHit) :
  let i := nextTask w in
  let ws := stopDriving (settles j i env (call (tick rt rv) w)) in
  let w' := settles 5 i env ws in
  env GetCurrentPosition = Fulfilled pos ->
  env (Fetch (alerts_url rt rv (latitude (coords pos)) (longitude (coords pos))))
    = Fulfilled res ->
  ok res = true ->
  env (Json res) = Fulfilled (hit :: rest) ->
  (j <= 2)%nat ->
  (exists t, tasks ws !! i = Some t)
  /\ lastHit (screen ws) = lastHit (screen w)
  /\ status (screen w') = "ALERTA"
  /\ lastHit (screen w') = of_hit rv hit
  /\ driving (screen w') = false.
Proof.
  cbv zeta. intros Hpos Hres Hok Hjson Hj.
  destruct (tick_hit_awaits rt rv env (screen w) pos res hit rest Hpos Hres Hok Hjson)
    as (audio & Hops).
  destruct (tick_hit rt rv env (screen w) pos res hit rest Hpos Hres Hok Hjson)
    as (_ & Halert & _ & Hhit & _).
  pose proof (proj2 (settles_awaits (nextTask w) env j (tick rt rv) w eq_refl)) as Hf.
  pose proof (tick_unwritten_at_stop rt rv w env j) as Hu.
  destruct (tick_late_writes rt rv w env j) as (Hd & _ & Hl & _ & Hst).
  cbv zeta in Hf, Hu. rewrite Hops in Hst, Hf, Hu.
  destruct j as [|[|[|j]]]; [| | |lia]; cbn [nth_error] in Hst, Hf, Hu;
    destruct Hf as (t & Ht & _), Hst as [Hsame _];
    (split; [exists t; exact Ht|]); (split; [exact Hu|]);
    (split; [rewrite Hsame; exact Halert|]);
    (split; [rewrite Hl; exact Hhit | exact Hd]).
Qed.

(** C5.  A [tick] is started, [j] of its promises settle, and [stopDriving]
    runs, leaving the status "Parado" and [busy] false.  The tick is then
    still in flight whenever its run has a [j]-th awaited operation, and it
    always has a first one: until the position arrives every tick is in
    flight.  When it finishes after the stop, its remaining steps write as
    they would have without the stop: the last alert and [soundRef] end as in
    the uninterrupted run and [busy] is written false.  A tick that was
    waiting for the position, the response or its body had written no last
    alert when [stopDriving] ran, and it writes its status over "Parado"; in
    particular a tick stopped before the position arrives never leaves
    "Parado", and one that finds a hit leaves "ALERTA" and that hit while
    [driving] is false.  Only a tick that was waiting inside [beep], or had
    finished, leaves the status "Parado".  No step reads [driving]. *)
Theorem tick_in_flight_writes_after_stop
    (rt : Runtime) (rv : Revision) (w : World rv) (env : Oracle) (j : nat) :
  let i := nextTask w in
  let alone := exec (tick rt rv) env (screen w) in
  let ws := stopDriving (settles j i env (call (tick rt rv) w)) in
  let w' := settles 5 i env ws in
  let w0 := settles 5 i env (stopDriving (call (tick rt rv) w)) in
  (status (screen ws) = "Parado" /\ busy (screen ws) = false
   /\ driving (screen ws) = false)
  /\ driving (screen w') = false
  /\ busy (screen w') = false
  /\ lastHit (screen w') = lastHit (final alone)
  /\ soundRef (screen w') = soundRef (final alone)
  /\ match nth_error (issued alone) j with
     | Some GetCurrentPosition | Some (Fetch _) | Some (Json _) =>
         status (screen w') = status (final alone)
         /\ status (screen w') <> "Parado"
     | Some CreateSound | Some (Replay _) | None =>
         status (screen w') = "Parado"
     end
  /\ match nth_error (issued alone) j with
     | Some op => exists t, tasks ws !! i = Some t /\ awaited t = op
     | None => tasks ws !! i = None
     end
  /\ match nth_error (issued alone) j with
     | Some GetCurrentPosition | Some (Fetch _) | Some (Json _) =>
         lastHit (screen ws) = lastHit (screen w)
     | _ => True
     end
  /\ nth_error (issued alone) 0 = Some GetCurrentPosition
  /\ ((exists t, tasks (stopDriving (call (tick rt rv) w)) !! i = Some t
                 /\ awaited t = GetCurrentPosition)
      /\ status (screen (stopDriving (call (tick rt rv) w))) = "Parado"
      /\ status (screen w0) = status (final alone)
      /\ status (screen w0) <> "Parado"
      /\ lastHit (screen w0) = lastHit (final alone))
  /\ (forall pos res hit rest,
      env GetCurrentPosition = Fulfilled pos ->
      env (Fetch (alerts_url rt rv (latitude (coords pos)) (longitude (coords pos))))
        = Fulfilled res ->
      ok res = true ->
      env (Json res) = Fulfilled (hit :: rest) ->
      (j <= 2)%nat ->
      (exists t, tasks ws !! i = Some t)
      /\ lastHit (screen ws) = lastHit (screen w)
      /\ status (screen w') = "ALERTA"
      /\ lastHit (screen w') = of_hit rv hit
      /\ driving (screen w') = false).
Proof.
  cbv zeta.
  destruct (tick_late_writes rt rv w env j) as (Hd & Hb & Hl & Hs & Hst).
  split; [rewrite stopDriving_screen; repeat split|].
  split; [exact Hd|]. split; [exact Hb|]. split; [exact Hl|]. split; [exact Hs|].
  split; [exact Hst|].
  split; [exact (proj2 (settles_awaits (nextTask w) env j (tick rt rv) w eq_refl))|].
  split; [exact (tick_unwritten_at_stop rt rv w env j)|].
  split; [exact (tick_first_await rt rv env (screen w))|].
  split; [exact (tick_stopped_at_once rt rv w env)|].
  exact (tick_stopped_before_alert rt rv w env j).
Qed.

(** The interval fires while the first tick still waits; the position
    arrives, [stopDriving] runs while the response is awaited, and the
    response and its body then arrive with a hit. *)
Lemma tick_in_flight_writes_after_stop_witness :
  let env := Sample.backend 200 [Sample.incident 1500] in
  let w := startDriving Sample.rt (boot (detail Sample.rt)) in
  let i := 2%positive in
  let ws := stopDriving (settles 1 i env (call (tick Sample.rt (detail Sample.rt)) w)) in
  let w' := settles 5 i env ws in
  (exists t, tasks ws !! i = Some t)
  /\ status (screen ws) = "Parado"
  /\ lastHit (screen ws) = None
  /\ status (screen w') = "ALERTA"
  /\ lastHit (screen w') = Some (Sample.incident 1500)
  /\ driving (screen w') = false.
Proof.
  cbv zeta.
  destruct (tick_in_flight_writes_after_stop Sample.rt (detail Sample.rt)
              (startDriving Sample.rt (boot (detail Sample.rt)))
              (Sample.backend 200 [Sample.incident 1500]) 1)
    as ((Hparado & _) & _ & _ & _ & _ & _ & _ & _ & _ & _ & Hhit).
  destruct (Hhit Sample.here {| res_status := 200 |} (Sample.incident 1500) []
              eq_refl eq_refl eq_refl eq_refl ltac:(lia))
    as (Hflight & Hbefore & Halert & Hlast & Hdriving).
  split; [exact Hflight|]. split; [exact Hparado|].
  split; [exact Hbefore|]. split; [exact Halert|].
  split; [exact Hlast | exact Hdriving].
Defined.

(** The session is stopped while the first tick waits for the position; the
    position, the response and its body then arrive. *)
Example stopped_session_raises_alert :
  let env := Sample.backend 200 [Sample.incident 1500] in
  let w := run Sample.rt (boot (detail Sample.rt))
             [Start; Stop; Settles 1%positive env; Settles 1%positive env;
              Settles 1%positive env] in
  screen w
  = mkScreen false "ALERTA" false (Some (Sample.incident 1500)) None None
  /\ timers w = ∅.
Proof. split; vm_compute; reflexivity. Qed.

(** The session is stopped while the tick waits inside [beep]: only [busy]
    is written afterwards. *)
Example stopped_session_during_beep :
  let env := Sample.backend 200 [Sample.incident 1500] in
  let w := run Sample.rt (boot (detail Sample.rt))
             [Start; Settles 1%positive env; Settles 1%positive env;
              Settles 1%positive env; Stop; Settles 1%positive env;
              Settles 1%positive env] in
  screen w
  = mkScreen false "Parado" false (Some (Sample.incident 1500)) None
      (Some 1%positive).
Proof. vm_compute; reflexivity. Qed.

(** ** Failures inside [tick] *)

Lemma tick_awaits (rt : Runtime) (rv : Revision) (env : Oracle) (s : HomeScreen (Last rv)) :
  (length (issued (exec (tick rt rv) env s)) <= 5)%nat.
Proof. tick_paths env s; cbn; lia. Qed.

(** C6.  Whichever promise is rejected (the position, the request, the
    parsing of the body), [tick] itself settles normally with the status
    "Error consultando backend"; it leaves [driving] and [timerRef] as they
    were, and on the event loop it disarms no interval and leaves no
    rejection unhandled. *)
Theorem tick_catches_every_failure
    (rt : Runtime) (rv : Revision) (env : Oracle) (w : World rv) :
  let s := screen w in
  let t := exec (tick rt rv) env s in
  let w' := settles 5 (nextTask w) env (call (tick rt rv) w) in
  outcome t = Fulfilled tt
  /\ driving (final t) = driving s
  /\ timerRef (final t) = timerRef s
  /\ (forall e, env GetCurrentPosition = Rejected e ->
      status (final t) = "Error consultando backend")
  /\ (forall pos e,
      env GetCurrentPosition = Fulfilled pos ->
      env (Fetch (alerts_url rt rv (latitude (coords pos)) (longitude (coords pos))))
        = Rejected e ->
      status (final t) = "Error consultando backend")
  /\ (forall pos res e,
      env GetCurrentPosition = Fulfilled pos ->
      env (Fetch (alerts_url rt rv (latitude (coords pos)) (longitude (coords pos))))
        = Fulfilled res ->
      ok res = true ->
      env (Json res) = Rejected e ->
      status (final t) = "Error consultando backend")
  /\ (screen w' = final t /\ timers w' = timers w /\ unhandled w' = unhandled w).
Proof.
  cbv zeta.
  split; [apply tick_settles|].
  split; [apply tick_keeps_session|].
  split; [apply tick_keeps_session|].
  split; [|split; [|split]].
  - intros e He. destruct (screen w). tick_along. reflexivity.
  - intros pos e Hpos He. destruct (screen w). tick_along. reflexivity.
  - intros pos res e Hpos Hres Hok He. destruct (screen w). tick_along. reflexivity.
  - unfold call.
    destruct (settles_exec (nextTask w) env (tick rt rv) (screen w)
                (mkWorld (screen w) (timers w) (nextTimer w) (tasks w)
                   (Pos.succ (nextTask w)) (requests w) (unhandled w))
                5 (tick_awaits rt rv env (screen w)))
      as (Hs & Ht & _ & Hu & _).
    split; [exact Hs|]. split; [exact Ht|].
    rewrite Hu, tick_settles. apply app_nil_r.
Qed.

Lemma tick_catches_every_failure_witness :
  let s := mounted (detail Sample.rt) in
  status (final (exec (tick Sample.rt (detail Sample.rt)) Sample.offline s))
    = "Error consultando backend"
  /\ status (final (exec (tick Sample.rt (detail Sample.rt)) Sample.unreachable s))
    = "Error consultando backend"
  /\ status (final (exec (tick Sample.rt (detail Sample.rt)) Sample.garbled s))
    = "Error consultando backend".
Proof.
  cbv zeta.
  destruct (tick_catches_every_failure Sample.rt (detail Sample.rt) Sample.offline
              (boot (detail Sample.rt))) as (_ & _ & _ & H1 & _).
  destruct (tick_catches_every_failure Sample.rt (detail Sample.rt) Sample.unreachable
              (boot (detail Sample.rt))) as (_ & _ & _ & _ & H2 & _).
  destruct (tick_catches_every_failure Sample.rt (detail Sample.rt) Sample.garbled
              (boot (detail Sample.rt))) as (_ & _ & _ & _ & _ & H3 & _).
  split; [exact (H1 _ eq_refl)|].
  split; [exact (H2 Sample.here _ eq_refl eq_refl)|].
  exact (H3 Sample.here {| res_status := 200 |} _ eq_refl eq_refl eq_refl eq_refl).
Defined.

(** ** Timers *)

Section Timers.

Context {rv : Revision}.
Variable rt : Runtime.
Implicit Types (w : World rv) (s : HomeScreen (Last rv)) (env : Oracle).

Lemma lets_be_refl s : lets_be s s.
Proof. repeat split. auto. Qed.

Lemma lets_be_trans s1 s2 s3 : lets_be s1 s2 -> lets_be s2 s3 -> lets_be s1 s3.
Proof.
  intros (H1 & H2 & H3) (K1 & K2 & K3). unfold lets_be.
  rewrite K1, K2. auto.
Qed.

Lemma winds_down_bind {A B : Type} (m : Async (HomeScreen (Last rv)) A)
    (f : A -> Async (HomeScreen (Last rv)) B) :
  winds_down m -> (forall a, winds_down (f a)) -> winds_down (bind m f).
Proof.
  intros Hm Hf. induction m as [a|e|k IH|g k IH|op k IH]; cbn in *.
  - apply Hf.
  - exact I.
  - intros s. apply IH, Hm.
  - destruct Hm as [Hg Hk]. split; [exact Hg | apply IH, Hk].
  - intros r. apply IH, Hm.
Qed.

Lemma winds_down_catch {A : Type} (m : Async (HomeScreen (Last rv)) A)
    (h : Error -> Async (HomeScreen (Last rv)) A) :
  winds_down m -> (forall e, winds_down (h e)) -> winds_down (catch m h).
Proof.
  intros Hm Hh. induction m as [a|e|k IH|g k IH|op k IH]; cbn in *.
  - exact I.
  - apply Hh.
  - intros s. apply IH, Hm.
  - destruct Hm as [Hg Hk]. split; [exact Hg | apply IH, Hk].
  - intros r. apply IH, Hm.
Qed.

Lemma winds_down_finally {A : Type} (m : Async (HomeScreen (Last rv)) A)
    (fin : Async (HomeScreen (Last rv)) unit) :
  winds_down m -> winds_down fin -> winds_down (finally m fin).
Proof.
  intros Hm Hf. induction m as [a|e|k IH|g k IH|op k IH]; cbn in *.
  - apply winds_down_bind; [exact Hf | intros; exact I].
  - apply winds_down_bind; [exact Hf | intros; exact I].
  - intros s. apply IH, Hm.
  - destruct Hm as [Hg Hk]. split; [exact Hg | apply IH, Hk].
  - intros r. apply IH, Hm.
Qed.

Lemma winds_down_await (op : Op) : winds_down (@await (HomeScreen (Last rv)) op).
Proof. intros [a|e]; exact I. Qed.

Lemma winds_down_put (f : HomeScreen (Last rv) -> HomeScreen (Last rv)) :
  (forall s, lets_be s (f s)) -> winds_down (put f).
Proof. intros Hf. split; [exact Hf | exact I]. Qed.

Lemma winds_down_beep : winds_down (@beep (Last rv)).
Proof.
  unfold beep. apply winds_down_catch; [|intros; exact I].
  apply winds_down_bind; [intros s; exact I|]. intros h.
  apply winds_down_bind.
  - destruct (soundRef h); [exact I|].
    apply winds_down_bind; [apply winds_down_await|].
    intros sound. apply winds_down_put. intros []. repeat split. auto.
  - intros _. apply winds_down_bind; [intros s; exact I|]. intros h'.
    destruct (soundRef h'); [apply winds_down_await | exact I].
Qed.

(** [tick] sets [busy]; everything after that winds down. *)
Lemma tick_winds_down :
  exists rest, tick rt rv = Put (with_busy true) rest /\ winds_down rest.
Proof.
  assert (Hstatus : forall v, winds_down (@setStatus (Last rv) v))
    by (intros v; apply winds_down_put; intros []; repeat split; auto).
  assert (Hidle : winds_down (@setBusy (Last rv) false)).
  { apply winds_down_put. intros []. repeat split. cbn. discriminate. }
  assert (Hlast : forall v, winds_down (@setLastHit (Last rv) v))
    by (intros v; apply winds_down_put; intros []; repeat split; auto).
  eexists. split; [reflexivity|]. cbn [bind].
  apply winds_down_finally; [|apply Hidle].
  apply winds_down_catch; [|intros; apply Hstatus].
  apply winds_down_bind; [apply Hstatus|]. intros _.
  apply winds_down_bind; [apply winds_down_await|]. intros pos.
  apply winds_down_bind; [apply Hstatus|]. intros _.
  apply winds_down_bind; [apply winds_down_await|]. intros res.
  destruct (negb (ok res)); [apply Hstatus|].
  apply winds_down_bind; [apply winds_down_await|]. intros [|hit rest].
  - apply winds_down_bind; [apply Hstatus|]. intros _. apply Hlast.
  - apply winds_down_bind; [apply Hlast|]. intros _.
    apply winds_down_bind; [apply Hstatus|]. intros _. apply winds_down_beep.
Qed.

(** Up to its next [await] such a call lets the session be, and what
    remains of it winds down as well. *)
Lemma winds_down_advance (m : Async (HomeScreen (Last rv)) unit) :
  winds_down m ->
  forall s,
    lets_be s (fst (advance m s))
    /\ match snd (advance m s) with
       | Waiting op k => forall r, winds_down (k r)
       | Finished _ => True
       end.
Proof.
  induction m as [a|e|k IH|g k IH|op k IH]; intros Hm s; cbn in *.
  - split; [apply lets_be_refl | exact I].
  - split; [apply lets_be_refl | exact I].
  - apply IH, Hm.
  - destruct Hm as [Hg Hk]. destruct (IH Hk (g s)) as [H1 H2].
    split; [exact (lets_be_trans _ _ _ (Hg s) H1) | exact H2].
  - split; [apply lets_be_refl | exact Hm].
Qed.

Lemma park_calm i (m : Async (HomeScreen (Last rv)) unit) s w :
  calm w -> winds_down m ->
  calm (park i (advance m s) w)
  /\ lets_be s (screen (park i (advance m s) w))
  /\ timers (park i (advance m s) w) = timers w
  /\ nextTimer (park i (advance m s) w) = nextTimer w.
Proof.
  intros Hw Hm. destruct (winds_down_advance m Hm s) as [Href Hrest].
  destruct (advance m s) as [s' p]. cbn [fst snd] in *.
  rewrite park_screen. split; [|split; [exact Href | apply park_timers]].
  intros j t Hj r. destruct p as [[a|e]|op k]; cbn [park tasks] in Hj.
  - apply lookup_delete_Some in Hj as [_ Hj]. apply (Hw j t Hj).
  - apply lookup_delete_Some in Hj as [_ Hj]. apply (Hw j t Hj).
  - apply lookup_insert_Some in Hj as [[_ <-]|[_ Hj]].
    + apply Hrest.
    + apply (Hw j t Hj).
Qed.

Lemma call_tick_calm w :
  calm w ->
  calm (call (tick rt rv) w)
  /\ timerRef (screen (call (tick rt rv) w)) = timerRef (screen w)
  /\ driving (screen (call (tick rt rv) w)) = driving (screen w)
  /\ timers (call (tick rt rv) w) = timers w
  /\ nextTimer (call (tick rt rv) w) = nextTimer w.
Proof.
  intros Hw. destruct tick_winds_down as (rest & Htick & Hrest).
  unfold call. rewrite Htick. cbn [advance].
  destruct (park_calm (nextTask w) rest (with_busy true (screen w))
              (mkWorld (screen w) (timers w) (nextTimer w) (tasks w)
                 (Pos.succ (nextTask w)) (requests w) (unhandled w)) Hw Hrest)
    as (Hc & (Href & Hdrv & _) & Ht & Hn).
  split; [exact Hc|]. split; [exact Href|]. split; [exact Hdrv|].
  split; [exact Ht | exact Hn].
Qed.

Lemma settle_calm i env w :
  calm w ->
  calm (settle i env w)
  /\ lets_be (screen w) (screen (settle i env w))
  /\ timers (settle i env w) = timers w
  /\ nextTimer (settle i env w) = nextTimer w.
Proof.
  intros Hw. unfold settle. destruct (tasks w !! i) as [t|] eqn:Hi.
  - apply (park_calm _ _ _ _ Hw (Hw i t Hi _)).
  - split; [exact Hw|]. split; [apply lets_be_refl|]. split; reflexivity.
Qed.

Lemma stopDriving_timers w :
  timers (stopDriving w)
  = match timerRef (screen w) with
    | Some t => delete t (timers w)
    | None => timers w
    end
  /\ nextTimer (stopDriving w) = nextTimer w
  /\ tasks (stopDriving w) = tasks w.
Proof.
  unfold stopDriving, update, with_screen.
  destruct (screen w) as [? ? ? ? [t|] ?]; repeat split.
Qed.

Lemma stopDriving_calm w : calm w -> calm (stopDriving w).
Proof.
  intros Hw i t Hi. destruct (stopDriving_timers w) as (_ & _ & Htasks).
  rewrite Htasks in Hi. exact (Hw i t Hi).
Qed.

Lemma stopDriving_clears w : single_timer w -> timers (stopDriving w) = ∅.
Proof.
  intros Hw. apply map_empty. intros t.
  destruct (stopDriving_timers w) as (-> & _).
  destruct (timers w !! t) as [ms|] eqn:Ht.
  - rewrite (Hw t ms Ht). apply lookup_delete_eq.
  - destruct (timerRef (screen w)) as [t'|]; [|exact Ht].
    apply lookup_delete_None. right. exact Ht.
Qed.

Lemma startDriving_single w :
  calm w -> timers w = ∅ ->
  calm (startDriving rt w) /\ single_timer (startDriving rt w)
  /\ driving (screen (startDriving rt w)) = true.
Proof.
  intros Hcalm Hnone. unfold startDriving.
  set (w1 := update (with_status "Conducción activa") (update (with_driving true) w)).
  assert (Hw1 : calm w1) by exact Hcalm.
  destruct (call_tick_calm w1 Hw1) as (Hc & _ & Hdrv & Ht & _).
  cbn [setInterval]. split; [exact Hc|]. split.
  - intros t ms. cbn [update with_screen timers screen timerRef with_timerRef].
    rewrite Ht. change (timers w1) with (timers w). rewrite Hnone.
    intros H. apply lookup_insert_Some in H as [[-> _]|[_ H]]; [reflexivity|].
    rewrite lookup_empty in H. discriminate.
  - cbn [update with_screen screen driving with_timerRef]. exact Hdrv.
Qed.

(** Without a call of [startDriving], no event arms an interval or moves
    the stored handle away from the armed one. *)
Lemma step_single w e :
  is_start e = false -> calm w -> single_timer w ->
  calm (step rt w e) /\ single_timer (step rt w e).
Proof.
  intros He Hcalm Hsingle. destruct e as [| | |t|i env]; cbn [step]; try discriminate.
  - split; [exact (stopDriving_calm w Hcalm)|]. intros t ms Ht.
    rewrite (stopDriving_clears w Hsingle), lookup_empty in Ht. discriminate.
  - destruct (call_tick_calm w Hcalm) as (Hc & Href & _ & Ht & _).
    split; [exact Hc|]. intros t ms. rewrite Ht, Href. apply Hsingle.
  - unfold fire. destruct (timers w !! t); [|split; assumption].
    destruct (call_tick_calm w Hcalm) as (Hc & Href & _ & Ht & _).
    split; [exact Hc|]. intros t' ms. rewrite Ht, Href. apply Hsingle.
  - destruct (settle_calm i env w Hcalm) as (Hc & (Href & _) & Ht & _).
    split; [exact Hc|]. intros t ms. rewrite Ht, Href. apply Hsingle.
Qed.

Lemma run_single es :
  forall w,
  no_start es = true -> calm w -> single_timer w ->
  calm (run rt w es) /\ single_timer (run rt w es).
Proof.
  induction es as [|e es IH]; intros w Hes Hcalm Hsingle; [split; assumption|].
  cbn in Hes. apply andb_prop in Hes as [He Hes].
  apply negb_true_iff in He.
  destruct (step_single w e He Hcalm Hsingle) as [Hc Hs].
  apply (IH _ Hes Hc Hs).
Qed.

Lemma step_disarmed w e :
  is_start e = false -> timers w = ∅ -> timers (step rt w e) = ∅.
Proof.
  intros He Hnone. destruct e as [| | |t|i env]; cbn [step]; try discriminate.
  - destruct (stopDriving_timers w) as (-> & _).
    destruct (timerRef (screen w)); [rewrite Hnone; apply delete_empty | exact Hnone].
  - unfold call. destruct (advance _ _) as [s p].
    destruct (park_timers (nextTask w) s p
                (mkWorld (screen w) (timers w) (nextTimer w) (tasks w)
                   (Pos.succ (nextTask w)) (requests w) (unhandled w))) as [-> _].
    exact Hnone.
  - unfold fire. rewrite Hnone, lookup_empty. exact Hnone.
  - destruct (settle_timers i env w) as [-> _]. exact Hnone.
Qed.

Lemma run_disarmed es :
  forall w, no_start es = true -> timers w = ∅ -> timers (run rt w es) = ∅.
Proof.
  induction es as [|e es IH]; intros w Hes Hnone; [exact Hnone|].
  cbn in Hes. apply andb_prop in Hes as [He Hes].
  apply negb_true_iff in He.
  apply (IH _ Hes (step_disarmed w e He Hnone)).
Qed.

Lemma boot_calm : calm (boot rv).
Proof. intros i t Hi. cbn in Hi. rewrite lookup_empty in Hi. discriminate. Qed.

(** Every world is calm that is reached by the functions of the screen:
    [tick] is the only async function that is ever called. *)
Lemma step_calm w e : calm w -> calm (step rt w e).
Proof.
  intros Hcalm. destruct e as [| | |t|i env]; cbn [step].
  - unfold startDriving. cbn [setInterval].
    set (w1 := update (with_status "Conducción activa") (update (with_driving true) w)).
    exact (proj1 (call_tick_calm w1 Hcalm)).
  - exact (stopDriving_calm w Hcalm).
  - exact (proj1 (call_tick_calm w Hcalm)).
  - unfold fire. destruct (timers w !! t); [|exact Hcalm].
    exact (proj1 (call_tick_calm w Hcalm)).
  - exact (proj1 (settle_calm i env w Hcalm)).
Qed.

Lemma run_calm es : forall w, calm w -> calm (run rt w es).
Proof.
  induction es as [|e es IH]; intros w Hw; [exact Hw|].
  apply IH, step_calm, Hw.
Qed.

(** [setInterval] never hands out a handle twice. *)
Lemma step_fresh w e : fresh_timers w -> fresh_timers (step rt w e).
Proof.
  intros Hw. destruct e as [| | |t|i env]; cbn [step].
  - unfold startDriving. cbn [setInterval].
    set (w1 := update (with_status "Conducción activa") (update (with_driving true) w)).
    intros t ms. cbn [update with_screen timers nextTimer].
    unfold call. destruct (advance _ _) as [s p].
    destruct (park_timers (nextTask w1) s p
                (mkWorld (screen w1) (timers w1) (nextTimer w1) (tasks w1)
                   (Pos.succ (nextTask w1)) (requests w1) (unhandled w1))) as [-> ->].
    cbn [timers nextTimer]. intros H.
    apply lookup_insert_Some in H as [[<- _]|[_ H]]; [lia|].
    pose proof (Hw t ms H). change (nextTimer w1) with (nextTimer w). lia.
  - intros t ms. destruct (stopDriving_timers w) as (-> & -> & _).
    destruct (timerRef (screen w)) as [t'|]; [|apply Hw].
    intros H. apply lookup_delete_Some in H as [_ H]. exact (Hw t ms H).
  - intros t ms. unfold call. destruct (advance _ _) as [s p].
    destruct (park_timers (nextTask w) s p
                (mkWorld (screen w) (timers w) (nextTimer w) (tasks w)
                   (Pos.succ (nextTask w)) (requests w) (unhandled w))) as [-> ->].
    apply Hw.
  - unfold fire. destruct (timers w !! t); [|exact Hw].
    intros t' ms. unfold call. destruct (advance _ _) as [s p].
    destruct (park_timers (nextTask w) s p
                (mkWorld (screen w) (timers w) (nextTimer w) (tasks w)
                   (Pos.succ (nextTask w)) (requests w) (unhandled w))) as [-> ->].
    apply Hw.
  - intros t ms. destruct (settle_timers i env w) as [-> ->]. apply Hw.
Qed.

Lemma run_fresh es : forall w, fresh_timers w -> fresh_timers (run rt w es).
Proof.
  induction es as [|e es IH]; intros w Hw; [exact Hw|].
  apply IH, step_fresh, Hw.
Qed.

Lemma boot_fresh : fresh_timers (boot rv).
Proof. intros t ms H. cbn in H. rewrite lookup_empty in H. discriminate. Qed.

(** Through the controls of the screen, a session that is not driving has
    no tick marked busy, no handle stored and no interval armed. *)
Lemma on_screen_idle w :
  on_screen rt w ->
  calm w /\ single_timer w
  /\ (driving (screen w) = false ->
      busy (screen w) = false /\ timerRef (screen w) = None /\ timers w = ∅).
Proof.
  assert (Hempty : forall w, single_timer w -> timerRef (screen w) = None ->
                             timers w = ∅).
  { intros w0 Hs Hr. apply map_empty. intros t.
    destruct (timers w0 !! t) as [ms|] eqn:Ht; [|reflexivity].
    rewrite (Hs t ms Ht) in Hr. discriminate. }
  induction 1 as [|w e Hon (Hcalm & Hsingle & Hidle) He].
  - split; [apply boot_calm|]. split.
    + intros t ms H. cbn in H. rewrite lookup_empty in H. discriminate.
    + intros _. repeat split.
  - destruct e as [| | |t|i env]; cbn [step offered] in *.
    + apply negb_true_iff in He. destruct (Hidle He) as (_ & _ & Hnone).
      destruct (startDriving_single w Hcalm Hnone) as (Hc & Hs & Hd).
      split; [exact Hc|]. split; [exact Hs|]. rewrite Hd. discriminate.
    + destruct (step_single w Stop eq_refl Hcalm Hsingle) as [Hc Hs].
      split; [exact Hc|]. split; [exact Hs|]. intros _.
      rewrite stopDriving_screen. split; [reflexivity|]. split; [reflexivity|].
      apply (stopDriving_clears w Hsingle).
    + apply andb_prop in He as [Hd _].
      destruct (step_single w TryNow eq_refl Hcalm Hsingle) as [Hc Hs].
      split; [exact Hc|]. split; [exact Hs|].
      destruct (call_tick_calm w Hcalm) as (_ & _ & Hdrv & _).
      cbn [step] in *. rewrite Hdrv, Hd. discriminate.
    + apply bool_decide_eq_true in He as [ms Ht].
      destruct (step_single w (Fires t) eq_refl Hcalm Hsingle) as [Hc Hs].
      split; [exact Hc|]. split; [exact Hs|].
      cbn [step] in *. unfold fire. rewrite Ht.
      destruct (call_tick_calm w Hcalm) as (_ & _ & Hdrv & _).
      rewrite Hdrv. intros Hd. destruct (Hidle Hd) as (_ & Href & _).
      rewrite (Hsingle t ms Ht) in Href. discriminate.
    + destruct (step_single w (Settles i env) eq_refl Hcalm Hsingle) as [Hc Hs].
      split; [exact Hc|]. split; [exact Hs|].
      cbn [step] in *.
      destruct (settle_calm i env w Hcalm) as (_ & (Href & Hdrv & Hbusy) & Ht & _).
      rewrite Hdrv. intros Hd. destruct (Hidle Hd) as (Hb & Hr & Hnone).
      split; [|split].
      * destruct (busy (screen (settle i env w))); [|reflexivity].
        rewrite (Hbusy eq_refl) in Hb. discriminate.
      * rewrite Href. exact Hr.
      * rewrite Ht. exact Hnone.
Qed.

End Timers.

(** ** Starting and stopping the session *)

Lemma call_tick_requests (rt : Runtime) {rv : Revision} (w : World rv) :
  requests (call (tick rt rv) w) = (requests w ++ [GetCurrentPosition])%list
  /\ status (screen (call (tick rt rv) w)) = "Obteniendo ubicación…"
  /\ busy (screen (call (tick rt rv) w)) = true
  /\ driving (screen (call (tick rt rv) w)) = driving (screen w).
Proof. repeat split. Qed.

Lemma stopDriving_twice {rv : Revision} (w : World rv) :
  stopDriving (stopDriving w) = stopDriving w.
Proof.
  destruct w as [[? ? ? ? [t|] ?] ? ? ? ? ? ?]; cbn; reflexivity.
Qed.

(** C4.  [stopDriving] leaves [driving] false, [busy] false, the status
    "Parado", no handle stored, and the interval whose handle was stored
    disarmed.  Calling it twice is the same as calling it once.  In a state
    where [driving] and [busy] are false and no handle is stored it changes
    the status and nothing else; every state with [driving] false that is
    reached through the controls of the screen is such a state, and has no
    interval armed.  When no interval is armed and [startDriving] is called,
    then, as long as it is not called again, once [stopDriving] has run no
    interval is armed and an elapsing timer starts no tick.  Through the
    controls of the screen this is always so: [startDriving] is offered only
    when [driving] is false, so [stopDriving] leaves no interval armed in
    any state the screen reaches, and until the next [startDriving] an
    elapsing timer starts no tick and adds no request. *)
Theorem stopDriving_stops_the_session
    (rt : Runtime) (rv : Revision) (w : World rv) :
  let w1 := stopDriving w in
  (driving (screen w1) = false /\ busy (screen w1) = false
   /\ status (screen w1) = "Parado" /\ timerRef (screen w1) = None
   /\ forall t, timerRef (screen w) = Some t -> timers w1 !! t = None)
  /\ stopDriving w1 = w1
  /\ (driving (screen w) = false -> busy (screen w) = false ->
      timerRef (screen w) = None ->
      w1 = update (with_status "Parado") w)
  /\ (on_screen rt w -> driving (screen w) = false ->
      w1 = update (with_status "Parado") w /\ timers w = ∅)
  /\ (calm w -> timers w = ∅ ->
      forall (es es' : list Event) (t : positive),
      no_start es = true -> no_start es' = true ->
      let w' := run rt (stopDriving (run rt (startDriving rt w) es)) es' in
      timers w' = ∅ /\ fire rt t w' = w')
  /\ (on_screen rt w ->
      timers w1 = ∅
      /\ forall (es' : list Event) (t : positive),
         no_start es' = true ->
         let w' := run rt w1 es' in
         timers w' = ∅ /\ fire rt t w' = w'
         /\ requests (fire rt t w') = requests w')
  /\ (on_screen rt w -> offered w Start = true ->
      forall (es es' : list Event) (t : positive),
      no_start es = true -> no_start es' = true ->
      let w' := run rt (stopDriving (run rt (step rt w Start) es)) es' in
      timers w' = ∅ /\ fire rt t w' = w'
      /\ requests (fire rt t w') = requests w').
Proof.
  assert (Hnoop : driving (screen w) = false -> busy (screen w) = false ->
                  timerRef (screen w) = None ->
                  stopDriving w = update (with_status "Parado") w).
  { unfold stopDriving, update, with_screen.
    destruct w as [[d st b l r snd] ? ? ? ? ? ?]. cbn.
    intros -> -> ->. reflexivity. }
  assert (Hquiet : forall (w0 : World rv) (t : positive),
            timers w0 = ∅ -> fire rt t w0 = w0).
  { intros w0 t H0. unfold fire. rewrite H0, lookup_empty. reflexivity. }
  assert (Hpair : calm w -> timers w = ∅ ->
            forall (es es' : list Event),
            no_start es = true -> no_start es' = true ->
            timers (run rt (stopDriving (run rt (startDriving rt w) es)) es') = ∅).
  { intros Hcalm Hnone es es' Hes Hes'.
    destruct (startDriving_single rt w Hcalm Hnone) as (Hc & Hs & _).
    destruct (run_single rt es _ Hes Hc Hs) as [_ Hs'].
    exact (run_disarmed rt es' _ Hes' (stopDriving_clears _ Hs')). }
  cbv zeta. split; [|split; [|split; [|split; [|split; [|split]]]]].
  - rewrite stopDriving_screen. repeat split.
    intros t Ht. destruct (stopDriving_timers w) as (-> & _).
    rewrite Ht. apply lookup_delete_eq.
  - apply stopDriving_twice.
  - exact Hnoop.
  - intros Hon Hidle.
    destruct (on_screen_idle rt w Hon) as (_ & _ & Hrest).
    destruct (Hrest Hidle) as (Hbusy & Href & Hnone).
    split; [exact (Hnoop Hidle Hbusy Href) | exact Hnone].
  - intros Hcalm Hnone es es' t Hes Hes'.
    pose proof (Hpair Hcalm Hnone es es' Hes Hes') as Hend.
    split; [exact Hend | exact (Hquiet _ t Hend)].
  - intros Hon. destruct (on_screen_idle rt w Hon) as (_ & Hsingle & _).
    pose proof (stopDriving_clears w Hsingle) as Hclear.
    split; [exact Hclear|]. intros es' t Hes'.
    pose proof (run_disarmed rt es' _ Hes' Hclear) as Hend.
    split; [exact Hend|]. rewrite (Hquiet _ t Hend). split; reflexivity.
  - intros Hon Hstart es es' t Hes Hes'.
    destruct (on_screen_idle rt w Hon) as (Hcalm & _ & Hrest).
    apply negb_true_iff in Hstart.
    destruct (Hrest Hstart) as (_ & _ & Hnone).
    pose proof (Hpair Hcalm Hnone es es' Hes Hes') as Hend.
    change (step rt w Start) with (startDriving rt w).
    split; [exact Hend|]. rewrite (Hquiet _ t Hend). split; reflexivity.
Qed.

Lemma stopDriving_stops_the_session_witness :
  let w := boot (detail Sample.rt) in
  let env := Sample.backend 200 [Sample.incident 1500] in
  let es := [Settles 1%positive env; Fires 1%positive] in
  let w' := run Sample.rt (stopDriving (run Sample.rt (step Sample.rt w Start) es))
              [Settles 1%positive (Sample.backend 200 [])] in
  (stopDriving w = update (with_status "Parado") w /\ timers w = ∅)
  /\ timers (step Sample.rt w Start) !! 1%positive = Some 30000%N
  /\ timers (stopDriving (step Sample.rt w Start)) = ∅
  /\ timers w' = ∅
  /\ fire Sample.rt 1%positive w' = w'
  /\ requests (fire Sample.rt 1%positive w') = requests w'.
Proof.
  cbv zeta.
  destruct (stopDriving_stops_the_session Sample.rt (detail Sample.rt)
              (boot (detail Sample.rt))) as (_ & _ & _ & Hshown & _ & _ & Hpair).
  destruct (stopDriving_stops_the_session Sample.rt (detail Sample.rt)
              (step Sample.rt (boot (detail Sample.rt)) Start))
    as (_ & _ & _ & _ & _ & Hstop & _).
  split; [exact (Hshown (on_boot Sample.rt) eq_refl)|].
  split; [reflexivity|].
  split; [exact (proj1 (Hstop (on_step Sample.rt _ Start (on_boot Sample.rt) eq_refl)))|].
  exact (Hpair (on_boot Sample.rt) eq_refl
           [Settles 1%positive (Sample.backend 200 [Sample.incident 1500]); Fires 1%positive]
           [Settles 1%positive (Sample.backend 200 [])] 1%positive eq_refl eq_refl).
Defined.

(** The worlds of the screen are what the statement about a state with
    [driving] false needs.  [startDriving] is called while an interval is
    armed, which the screen does not offer, and [stopDriving] follows: the
    earlier interval then fires and its tick requests the position.  The
    state this leaves is none the screen reaches: [driving] is false and
    [busy] is true, and there [stopDriving] changes [busy] as well as the
    status. *)
Lemma stopDriving_not_only_status :
  let w1 := startDriving Sample.rt (boot (detail Sample.rt)) in
  let w2 := stopDriving (startDriving Sample.rt w1) in
  let wx := fire Sample.rt 1%positive w2 in
  offered w1 Start = false
  /\ ~ on_screen Sample.rt wx
  /\ (requests wx = (requests w2 ++ [GetCurrentPosition])%list /\ wx <> w2)
  /\ driving (screen wx) = false
  /\ busy (screen wx) = true
  /\ busy (screen (stopDriving wx)) = false
  /\ stopDriving wx <> update (with_status "Parado") wx.
Proof.
  cbv zeta. split; [|split; [|split; [split|split; [|split; [|split]]]]].
  - reflexivity.
  - intros Hon. destruct (on_screen_idle Sample.rt _ Hon) as (_ & _ & Hidle).
    assert (Hd : driving (screen (fire Sample.rt 1%positive
                   (stopDriving (startDriving Sample.rt
                      (startDriving Sample.rt (boot (detail Sample.rt))))))) = false)
      by (vm_compute; reflexivity).
    destruct (Hidle Hd) as (Hb & _). vm_compute in Hb. discriminate.
  - vm_compute. reflexivity.
  - intros H. apply (f_equal (fun w => length (requests w))) in H.
    vm_compute in H. discriminate.
  - vm_compute. reflexivity.
  - vm_compute. reflexivity.
  - vm_compute. reflexivity.
  - intros H. apply (f_equal (fun w => busy (screen w))) in H.
    vm_compute in H. discriminate.
Qed.

(** C10.  [startDriving], called while an interval [t] is armed, stores the
    handle of a new interval and leaves [t] armed: two intervals are armed.
    The [stopDriving] that follows disarms the new one only; [t] still fires,
    and its tick asks for the position. *)
Theorem startDriving_twice_leaks_interval
    (rt : Runtime) (rv : Revision) (w : World rv) (t : positive) (ms : N) :
  timers w !! t = Some ms ->
  fresh_timers w ->
  let t' := nextTimer w in
  let w1 := startDriving rt w in
  let w2 := stopDriving w1 in
  t' <> t
  /\ timerRef (screen w1) = Some t'
  /\ timers w1 !! t = Some ms
  /\ timers w1 !! t' = Some 30000%N
  /\ timers w2 !! t' = None
  /\ timers w2 !! t = Some ms
  /\ fire rt t w2 = call (tick rt rv) w2
  /\ requests (fire rt t w2) = (requests w2 ++ [GetCurrentPosition])%list.
Proof.
  intros Ht Hfresh. cbv zeta.
  assert (Hne : nextTimer w <> t).
  { intros Heq. pose proof (Hfresh t ms Ht) as Hlt. rewrite Heq in Hlt. lia. }
  assert (Hw1 : timers (startDriving rt w) = <[nextTimer w := 30000%N]> (timers w)
                /\ timerRef (screen (startDriving rt w)) = Some (nextTimer w))
    by (split; reflexivity).
  destruct Hw1 as [Htimers Href].
  assert (Hw2 : timers (stopDriving (startDriving rt w))
                = delete (nextTimer w) (<[nextTimer w := 30000%N]> (timers w))).
  { destruct (stopDriving_timers (startDriving rt w)) as (-> & _).
    rewrite Href, Htimers. reflexivity. }
  assert (Harmed : timers (stopDriving (startDriving rt w)) !! t = Some ms).
  { rewrite Hw2, lookup_delete_ne, lookup_insert_ne by exact Hne. exact Ht. }
  split; [exact Hne|]. split; [exact Href|].
  split; [rewrite Htimers, lookup_insert_ne by exact Hne; exact Ht|].
  split; [rewrite Htimers; apply lookup_insert_eq|].
  split; [rewrite Hw2; apply lookup_delete_eq|].
  split; [exact Harmed|].
  unfold fire. rewrite Harmed. split; [reflexivity|].
  apply call_tick_requests.
Qed.

Lemma startDriving_twice_leaks_interval_witness :
  let w := startDriving Sample.rt (boot (detail Sample.rt)) in
  let w2 := stopDriving (startDriving Sample.rt w) in
  timers w2 !! 1%positive = Some 30000%N
  /\ timers w2 !! 2%positive = None
  /\ requests (fire Sample.rt 1%positive w2) = (requests w2 ++ [GetCurrentPosition])%list.
Proof.
  cbv zeta.
  assert (Hfresh : fresh_timers (startDriving Sample.rt (boot (detail Sample.rt)))).
  { intros t ms Ht. cbn in Ht.
    apply lookup_insert_Some in Ht as [[<- _]|[_ Ht]]; [reflexivity|].
    rewrite lookup_empty in Ht. discriminate. }
  destruct (startDriving_twice_leaks_interval Sample.rt (detail Sample.rt)
              (startDriving Sample.rt (boot (detail Sample.rt))) 1%positive 30000%N
              eq_refl Hfresh)
    as (_ & _ & _ & _ & Hnew & Hold & _ & Hreq).
  exact (conj Hold (conj Hnew Hreq)).
Defined.

(** * Further properties *)

(** ** The backend address *)

(** X1.  A non-empty [EXPO_PUBLIC_API_URL] is the backend address on every
    platform; an empty one counts as not set. *)
Theorem getBackendBaseUrl_override (url : option string) (os : OS) (dev : bool)
    (ts : Num.number -> string) :
  let rt := Build_Runtime url os dev ts in
  (forall u, url = Some u -> u <> "" -> getBackendBaseUrl rt = u)
  /\ (url = Some "" ->
      getBackendBaseUrl rt = getBackendBaseUrl (Build_Runtime None os dev ts)).
Proof.
  cbv zeta. split.
  - intros u -> Hu. destruct u as [|c u]; [contradiction|reflexivity].
  - intros ->. reflexivity.
Qed.

Lemma getBackendBaseUrl_override_witness :
  getBackendBaseUrl
    (Build_Runtime (Some "https://api.example.org") ios true Sample.toString)
  = "https://api.example.org"
  /\ getBackendBaseUrl (Build_Runtime (Some "") web false Sample.toString)
     = "http://localhost:8080/api".
Proof.
  destruct (getBackendBaseUrl_override (Some "https://api.example.org") ios true
              Sample.toString) as [Hset _].
  destruct (getBackendBaseUrl_override (Some "") web false Sample.toString)
    as [_ Hempty].
  split.
  - apply (Hset _ eq_refl). discriminate.
  - rewrite (Hempty eq_refl). reflexivity.
Defined.

(** X2.  Without an override the address is one of three.  It is the
    emulator's host alias exactly on an Android that is not a device, the
    fixed LAN address exactly off the web on a device or on a platform other
    than Android and iOS, and localhost otherwise; on the web [isDevice] plays
    no part. *)
Theorem getBackendBaseUrl_platform (os : OS) (dev : bool) (ts : Num.number -> string) :
  let url := getBackendBaseUrl (Build_Runtime None os dev ts) in
  (url = "http://localhost:8080/api" \/ url = "http://10.0.2.2:8080/api"
   \/ url = "http://192.168.1.40:8080/api")
  /\ (url = "http://10.0.2.2:8080/api" <-> os = android /\ dev = false)
  /\ (url = "http://192.168.1.40:8080/api"
      <-> os <> web /\ (dev = true \/ os = other_os))
  /\ (os = web -> url = "http://localhost:8080/api").
Proof.
  cbv zeta. destruct os, dev; cbn; intuition (discriminate || congruence).
Qed.

(** ** More about one [tick] *)

(** X3.  A [tick] touches the audio exactly when it ends with the status
    "ALERTA", and it reads the body of a response only when the response is
    [ok]. *)
Theorem tick_audio_iff_alert
    (rt : Runtime) (rv : Revision) (env : Oracle) (s : HomeScreen (Last rv)) :
  let t := exec (tick rt rv) env s in
  (existsb is_audio (issued t) = true <-> status (final t) = "ALERTA")
  /\ (forall res, In (Json res) (issued t) -> ok res = true).
Proof.
  cbv zeta. tick_paths env s; (split; [split; intros H; (discriminate H || reflexivity)|]);
    intros r Hin; cbn in Hin;
    repeat match goal with
      | H : _ \/ _ |- _ => destruct H
      | H : False |- _ => destruct H
      | H : Json _ = Json _ |- _ => injection H as <-
      end;
    (discriminate || assumption).
Qed.

(** X4.  Between its start and its end a [tick] can pass through
    "Obteniendo ubicación…" and "Consultando incidencias…", but it never ends
    on them: it ends on the generic error, on "Sin incidencias cercanas" with
    the last alert cleared, on "ALERTA" with the last alert taken from a hit,
    or on "Backend " and the code of a response that is not [ok]. *)
Theorem tick_final_status
    (rt : Runtime) (rv : Revision) (env : Oracle) (s : HomeScreen (Last rv)) :
  let t := exec (tick rt rv) env s in
  (status (final t) = "Error consultando backend"
   \/ (status (final t) = "Sin incidencias cercanas" /\ lastHit (final t) = no_alert rv)
   \/ (status (final t) = "ALERTA" /\ exists hit, lastHit (final t) = of_hit rv hit)
   \/ (exists res, ok res = false
         /\ status (final t) = "Backend " ++ Num.digits (res_status res)))
  /\ status (final t) <> "Obteniendo ubicación…"
  /\ status (final t) <> "Consultando incidencias…".
Proof.
  cbv zeta. tick_paths env s; (split; [|split; discriminate]); eauto 8.
Qed.

(** X5.  When a [tick] ends on the generic error, the last alert and the
    stored sound are as they were before it, and the audio was not touched. *)
Theorem tick_error_keeps_last_alert
    (rt : Runtime) (rv : Revision) (env : Oracle) (s : HomeScreen (Last rv)) :
  let t := exec (tick rt rv) env s in
  status (final t) = "Error consultando backend" ->
  lastHit (final t) = lastHit s
  /\ soundRef (final t) = soundRef s
  /\ existsb is_audio (issued t) = false.
Proof.
  cbv zeta. tick_paths env s; intros H; try discriminate H; repeat split.
Qed.

Lemma tick_error_keeps_last_alert_witness :
  let s := with_lastHit (Some (Sample.incident 1500)) (mounted (detail Sample.rt)) in
  let t := exec (tick Sample.rt (detail Sample.rt)) Sample.unreachable s in
  lastHit (final t) = Some (Sample.incident 1500)
  /\ soundRef (final t) = None
  /\ existsb is_audio (issued t) = false.
Proof.
  exact (tick_error_keeps_last_alert Sample.rt (detail Sample.rt) Sample.unreachable
           (with_lastHit (Some (Sample.incident 1500)) (mounted (detail Sample.rt)))
           eq_refl).
Defined.



(** ** More about the event loop *)

Section Overlap.

Context {rv : Revision}.
Variable rt : Runtime.
Implicit Types (w : World rv) (s : HomeScreen (Last rv)) (env : Oracle).

Lemma settle_others i j env w :
  j <> i -> tasks (settle i env w) !! j = tasks w !! j.
Proof.
  intros Hj. unfold settle. destruct (tasks w !! i) as [t|]; [|reflexivity].
  destruct (advance _ _) as [s [[a|e]|op k]]; cbn [park tasks].
  - apply lookup_delete_ne. congruence.
  - apply lookup_delete_ne. congruence.
  - apply lookup_insert_ne. congruence.
Qed.

Lemma settles_others n i j env :
  forall w, j <> i -> tasks (settles n i env w) !! j = tasks w !! j.
Proof.
  induction n as [|n IH]; intros w Hj; [reflexivity|].
  cbn [settles]. rewrite (IH _ Hj). apply settle_others, Hj.
Qed.

(** A suspended call that is left alone until it has finished. *)
Lemma settles_task i env w (t : Task rv) n :
  tasks w !! i = Some t ->
  let r := exec (resume t (env (awaited t))) env (screen w) in
  (length (issued r) <= n)%nat ->
  let w' := settles (S n) i env w in
  screen w' = final r
  /\ timers w' = timers w
  /\ tasks w' !! i = None
  /\ forall j, j <> i -> tasks w' !! j = tasks w !! j.
Proof.
  intros Ht r Hn. cbv zeta.
  split; [|split; [|split]].
  - cbn [settles]. unfold settle. rewrite Ht.
    apply (settles_exec i env _ (screen w) w n Hn).
  - cbn [settles]. unfold settle. rewrite Ht.
    apply (settles_exec i env _ (screen w) w n Hn).
  - cbn [settles]. unfold settle. rewrite Ht.
    apply (settles_exec i env _ (screen w) w n Hn).
  - intros j Hj. apply settles_others, Hj.
Qed.

(** What [tick()] leaves on the loop, and what its suspended rest does. *)
Lemma call_tick_world :
  exists k0 : Settled LocationObject -> Async (HomeScreen (Last rv)) unit,
    (forall w,
       call (tick rt rv) w
       = mkWorld (with_status "Obteniendo ubicación…" (with_busy true (screen w)))
           (timers w) (nextTimer w)
           (<[nextTask w := mkTask GetCurrentPosition k0]> (tasks w))
           (Pos.succ (nextTask w)) (requests w ++ [GetCurrentPosition])
           (unhandled w))
    /\ (forall env s,
          final (exec (k0 (env GetCurrentPosition)) env s)
          = final (exec (tick rt rv) env s)
          /\ (length (issued (exec (k0 (env GetCurrentPosition)) env s)) <= 4)%nat).
Proof.
  eexists. split; [intros w; reflexivity|].
  intros env s. tick_paths env s; split; first [reflexivity | cbn; lia].
Qed.


End Overlap.

(** The world that [startDriving] leaves. *)
Lemma startDriving_world (rt : Runtime) {rv : Revision} (w : World rv) :
  screen (startDriving rt w)
  = mkScreen true "Obteniendo ubicación…" true (lastHit (screen w))
      (Some (nextTimer w)) (soundRef (screen w))
  /\ timers (startDriving rt w) = <[nextTimer w := 30000%N]> (timers w)
  /\ requests (startDriving rt w) = (requests w ++ [GetCurrentPosition])%list
  /\ exists t, tasks (startDriving rt w) !! nextTask w = Some t
               /\ awaited t = GetCurrentPosition.
Proof.
  destruct (call_tick_world (rv := rv) rt) as (k0 & Hcall & _).
  unfold startDriving. rewrite Hcall. cbn.
  split; [reflexivity|]. split; [reflexivity|]. split; [reflexivity|].
  eexists. split; [apply lookup_insert_eq | reflexivity].
Qed.

(** X7.  [startDriving] runs the first [tick] up to its first [await] before
    it returns: the status is then already "Obteniendo ubicación…" (the
    "Conducción activa" written just before is never left on the screen),
    [busy] is set, the position has been requested, and the new interval is
    armed with a period of 30 s and its handle stored. *)
Theorem startDriving_starts_first_tick
    (rt : Runtime) (rv : Revision) (w : World rv) :
  let w' := startDriving rt w in
  screen w'
  = mkScreen true "Obteniendo ubicación…" true (lastHit (screen w))
      (Some (nextTimer w)) (soundRef (screen w))
  /\ status (screen w') <> "Conducción activa"
  /\ timers w' = <[nextTimer w := 30000%N]> (timers w)
  /\ requests w' = (requests w ++ [GetCurrentPosition])%list
  /\ exists t, tasks w' !! nextTask w = Some t /\ awaited t = GetCurrentPosition.
Proof.
  cbv zeta. destruct (startDriving_world rt w) as (Hscreen & Htimers & Hreq & Htask).
  split; [exact Hscreen|]. split; [rewrite Hscreen; discriminate|].
  split; [exact Htimers|]. split; [exact Hreq | exact Htask].
Qed.

(** X8.  [startDriving] followed by [stopDriving] leaves the armed intervals
    exactly as they were; the tick that [startDriving] began is still
    suspended, waiting for the position. *)
Theorem start_stop_restores_timers
    (rt : Runtime) (rv : Revision) (w : World rv) :
  fresh_timers w ->
  let w' := stopDriving (startDriving rt w) in
  timers w' = timers w
  /\ timerRef (screen w') = None
  /\ exists t, tasks w' !! nextTask w = Some t /\ awaited t = GetCurrentPosition.
Proof.
  intros Hfresh. cbv zeta.
  destruct (startDriving_world rt w) as (Hscreen & Htimers & _ & Htask).
  destruct (stopDriving_timers (startDriving rt w)) as (Ht & _ & Htasks).
  split; [|split].
  - rewrite Ht, Hscreen, Htimers. cbn [timerRef].
    rewrite delete_insert_eq. apply delete_id.
    destruct (timers w !! nextTimer w) as [ms|] eqn:Harmed; [|reflexivity].
    pose proof (Hfresh _ _ Harmed). lia.
  - rewrite stopDriving_screen. reflexivity.
  - rewrite Htasks. exact Htask.
Qed.

Lemma start_stop_restores_timers_witness :
  let w := startDriving Sample.rt (boot (detail Sample.rt)) in
  timers (stopDriving (startDriving Sample.rt w)) = timers w
  /\ timers w !! 1%positive = Some 30000%N.
Proof.
  cbv zeta. split; [|reflexivity].
  apply (start_stop_restores_timers Sample.rt (detail Sample.rt)
           (startDriving Sample.rt (boot (detail Sample.rt)))).
  apply step_fresh with (e := Start), boot_fresh.
Defined.

(** X9.  Through the controls of the screen at most one interval is ever
    armed, and only while [driving] is true and its handle is the one stored
    in [timerRef]. *)
Theorem on_screen_single_interval
    (rt : Runtime) (rv : Revision) (w : World rv) :
  on_screen rt w ->
  (forall t1 t2, is_Some (timers w !! t1) -> is_Some (timers w !! t2) -> t1 = t2)
  /\ (forall t, is_Some (timers w !! t) ->
      driving (screen w) = true /\ timerRef (screen w) = Some t).
Proof.
  intros Hon. destruct (on_screen_idle rt w Hon) as (_ & Hsingle & Hidle).
  split.
  - intros t1 t2 [ms1 H1] [ms2 H2].
    pose proof (Hsingle _ _ H1) as R1. pose proof (Hsingle _ _ H2) as R2.
    congruence.
  - intros t [ms Ht]. split; [|exact (Hsingle _ _ Ht)].
    destruct (driving (screen w)) eqn:Hd; [reflexivity|].
    destruct (Hidle eq_refl) as (_ & _ & Hnone).
    rewrite Hnone, lookup_empty in Ht. discriminate.
Qed.

Lemma on_screen_single_interval_witness :
  let w := step Sample.rt (step Sample.rt (boot (detail Sample.rt)) Start)
             (Fires 1%positive) in
  driving (screen w) = true /\ timerRef (screen w) = Some 1%positive.
Proof.
  cbv zeta.
  refine (proj2 (on_screen_single_interval Sample.rt (detail Sample.rt) _ _) 1%positive _).
  - apply on_step; [apply on_step; [apply on_boot | reflexivity] | reflexivity].
  - eexists. reflexivity.
Defined.

(** X10.  The cleanup of the mount effect is [stopDriving].  Run in any state
    reached through the controls of the screen, it leaves no interval armed;
    the calls that are suspended stay suspended. *)
Theorem unmount_disarms
    (rt : Runtime) (rv : Revision) (w : World rv) :
  on_screen rt w ->
  timers (stopDriving w) = ∅ /\ tasks (stopDriving w) = tasks w.
Proof.
  intros Hon. destruct (on_screen_idle rt w Hon) as (_ & Hsingle & _).
  split; [apply (stopDriving_clears w Hsingle)|].
  apply (stopDriving_timers w).
Qed.

Lemma unmount_disarms_witness :
  let w := step Sample.rt (boot (detail Sample.rt)) Start in
  timers w !! 1%positive = Some 30000%N /\ timers (stopDriving w) = ∅.
Proof.
  cbv zeta. split; [reflexivity|].
  refine (proj1 (unmount_disarms Sample.rt (detail Sample.rt) _ _)).
  apply on_step; [apply on_boot | reflexivity].
Defined.

(** X11.  Whatever calls and settlements came before, a promise that settles
    never changes [driving], the stored handle or the armed intervals, and
    never sets [busy]. *)
Theorem settling_lets_the_session_be
    (rt : Runtime) (rv : Revision) (es : list Event) (i : positive) (env : Oracle) :
  let w := run rt (boot rv) es in
  let w' := settle i env w in
  driving (screen w') = driving (screen w)
  /\ timerRef (screen w') = timerRef (screen w)
  /\ timers w' = timers w
  /\ (busy (screen w') = true -> busy (screen w) = true).
Proof.
  cbv zeta.
  destruct (settle_calm i env _ (run_calm rt es _ (boot_calm (rv := rv))))
    as (_ & (Href & Hdrv & Hbusy) & Ht & _).
  auto.
Qed.

(** X12.  A second [tick] is called while the first one waits for the
    position.  When the first has finished, [busy] is false although the
    second is still waiting. *)
Theorem busy_cleared_while_in_flight
    (rt : Runtime) (rv : Revision) (w : World rv) (env : Oracle) :
  let i1 := nextTask w in
  let w2 := call (tick rt rv) (call (tick rt rv) w) in
  let w3 := settles 5 i1 env w2 in
  busy (screen w2) = true
  /\ busy (screen w3) = false
  /\ exists t, tasks w3 !! Pos.succ i1 = Some t /\ awaited t = GetCurrentPosition.
Proof.
  cbv zeta. destruct (call_tick_world (rv := rv) rt) as (k0 & Hcall & Hk0).
  rewrite !Hcall. cbn [screen nextTask tasks].
  split; [reflexivity|].
  set (w2 := mkWorld _ _ _ _ _ _ _).
  assert (H1 : tasks w2 !! nextTask w = Some (mkTask GetCurrentPosition k0)).
  { subst w2. cbn [tasks].
    rewrite lookup_insert_ne by (symmetry; apply Pos.succ_discr).
    apply lookup_insert_eq. }
  destruct (Hk0 env (screen w2)) as [Hfinal Hlen].
  destruct (settles_task (nextTask w) env w2 _ 4 H1 Hlen) as (Hs & _ & _ & Hothers).
  split.
  - rewrite Hs. cbn [resume awaited]. rewrite Hfinal. apply (tick_busy rt rv).
  - exists (mkTask GetCurrentPosition k0). split; [|reflexivity].
    rewrite Hothers by (symmetry; apply Pos.succ_discr).
    subst w2. cbn [tasks]. apply lookup_insert_eq.
Qed.



(** ** Rejections *)

Section NeverThrows.

Context {St : Type}.

Lemma never_throws_bind {A B : Type} (m : Async St A) (f : A -> Async St B) :
  never_throws m -> (forall a, never_throws (f a)) -> never_throws (bind m f).
Proof.
  intros Hm Hf. induction m as [a|e|k IH|g k IH|op k IH]; cbn in *.
  - apply Hf.
  - exact Hm.
  - intros s. apply IH, Hm.
  - apply IH, Hm.
  - intros r. apply IH, Hm.
Qed.

(** [catch] with a handler that does not throw turns any call into one that
    does not throw. *)
Lemma never_throws_catch {A : Type} (m : Async St A) (h : Error -> Async St A) :
  (forall e, never_throws (h e)) -> never_throws (catch m h).
Proof.
  intros Hh. induction m as [a|e|k IH|g k IH|op k IH]; cbn.
  - exact I.
  - apply Hh.
  - intros s. apply IH.
  - apply IH.
  - intros r. apply IH.
Qed.

Lemma never_throws_finally {A : Type} (m : Async St A) (fin : Async St unit) :
  never_throws m -> never_throws fin -> never_throws (finally m fin).
Proof.
  intros Hm Hf. induction m as [a|e|k IH|g k IH|op k IH]; cbn in *.
  - apply never_throws_bind; [exact Hf | intros; exact I].
  - destruct Hm.
  - intros s. apply IH, Hm.
  - apply IH, Hm.
  - intros r. apply IH, Hm.
Qed.

Lemma never_throws_advance (m : Async St unit) :
  never_throws m ->
  forall s,
    match snd (advance m s) with
    | Finished (Fulfilled _) => True
    | Finished (Rejected _) => False
    | Waiting op k => forall r, never_throws (k r)
    end.
Proof.
  induction m as [a|e|k IH|g k IH|op k IH]; intros Hm s; cbn in *.
  - exact I.
  - exact Hm.
  - apply IH, Hm.
  - apply IH, Hm.
  - exact Hm.
Qed.

End NeverThrows.

Section Unhandled.

Context {rv : Revision}.
Variable rt : Runtime.
Implicit Types (w : World rv).

Lemma tick_never_throws : never_throws (tick rt rv).
Proof.
  unfold tick. apply never_throws_bind; [exact I|]. intros _.
  apply never_throws_finally; [|exact I].
  apply never_throws_catch. intros e. exact I.
Qed.

Lemma park_safe i (m : Async (HomeScreen (Last rv)) unit) s w :
  safe w -> never_throws m ->
  safe (park i (advance m s) w)
  /\ unhandled (park i (advance m s) w) = unhandled w.
Proof.
  intros Hw Hm. pose proof (never_throws_advance m Hm s) as Hrest.
  destruct (advance m s) as [s' [[a|e]|op k]]; cbn [snd] in Hrest; [| destruct Hrest |].
  - split; [|reflexivity]. intros j t Hj. cbn [park tasks] in Hj.
    apply lookup_delete_Some in Hj as [_ Hj]. exact (Hw j t Hj).
  - split; [|reflexivity]. intros j t Hj. cbn [park tasks] in Hj.
    apply lookup_insert_Some in Hj as [[_ <-]|[_ Hj]]; [exact Hrest | exact (Hw j t Hj)].
Qed.

Lemma call_safe w :
  safe w ->
  safe (call (tick rt rv) w) /\ unhandled (call (tick rt rv) w) = unhandled w.
Proof.
  intros Hw. unfold call.
  exact (park_safe (nextTask w) (tick rt rv) (screen w)
           (mkWorld (screen w) (timers w) (nextTimer w) (tasks w)
              (Pos.succ (nextTask w)) (requests w) (unhandled w))
           Hw tick_never_throws).
Qed.

Lemma step_safe w e :
  safe w -> safe (step rt w e) /\ unhandled (step rt w e) = unhandled w.
Proof.
  intros Hw. destruct e as [| | |t|i env]; cbn [step].
  - unfold startDriving. cbn [setInterval].
    set (w1 := update (with_status "Conducción activa") (update (with_driving true) w)).
    exact (call_safe w1 Hw).
  - split.
    + intros j t Hj. destruct (stopDriving_timers w) as (_ & _ & Htasks).
      rewrite Htasks in Hj. exact (Hw j t Hj).
    + unfold stopDriving, update, with_screen.
      destruct (screen w) as [? ? ? ? [t|] ?]; reflexivity.
  - exact (call_safe w Hw).
  - unfold fire. destruct (timers w !! t); [|split; [exact Hw | reflexivity]].
    exact (call_safe w Hw).
  - unfold settle. destruct (tasks w !! i) as [t|] eqn:Hi;
      [|split; [exact Hw | reflexivity]].
    exact (park_safe i _ (screen w) w Hw (Hw i t Hi _)).
Qed.

Lemma boot_safe : safe (boot rv).
Proof. intros i t Hi. cbn in Hi. rewrite lookup_empty in Hi. discriminate. Qed.

Lemma run_safe es :
  forall w, safe w -> safe (run rt w es) /\ unhandled (run rt w es) = unhandled w.
Proof.
  induction es as [|e es IH]; intros w Hw; [split; [exact Hw | reflexivity]|].
  destruct (step_safe w e Hw) as [Hs Hu].
  destruct (IH _ Hs) as [Hs' Hu'].
  change (run rt w (e :: es)) with (run rt (step rt w e) es).
  split; [exact Hs' | rewrite Hu', Hu; reflexivity].
Qed.

End Unhandled.

(** X14.  However calls of [startDriving], [stopDriving] and [tick], firing
    intervals and settling promises are interleaved, and however the promises
    settle, no call ever ends in a rejection that nobody handles. *)
Theorem no_unhandled_rejection (rt : Runtime) (rv : Revision) (es : list Event) :
  unhandled (run rt (boot rv) es) = []
  /\ safe (run rt (boot rv) es).
Proof.
  destruct (run_safe rt es (boot rv) boot_safe) as [Hs Hu].
  split; [exact Hu | exact Hs].
Qed.

(** ** The card *)

Lemma Field_shows (rt : Runtime) (label : string) (value : Value) (row : string * string) :
  Field rt label value = Some row ->
  row = (label, String_of rt value) /\ value <> VString "".
Proof.
  destruct value as [| |[|c s]|x]; cbn; intros H; try discriminate H;
    injection H as <-; split; (reflexivity || discriminate).
Qed.

Lemma omap_shorter {A B : Type} (f : A -> option B) (l : list A) :
  (length (omap f l) <= length l)%nat.
Proof.
  induction l as [|a l IH]; [reflexivity|].
  cbn. destruct (f a); cbn; lia.
Qed.

(** X15.  The "PK" row shows [pkText] when it is a non-empty string, and
    [pkKm] when [pkText] is absent.  An empty [pkText] hides the row, also
    when [pkKm] is there. *)
Theorem PK_row (rt : Runtime) (hit : AlertHit) :
  let e := event hit in
  let rows := details rt (Some hit) in
  (forall s, AlertEvent.pkText e = Some s -> s <> "" -> ("PK", s) ∈ rows)
  /\ (forall km, AlertEvent.pkText e = None -> AlertEvent.pkKm e = Some km ->
      ("PK", Number_toString rt km) ∈ rows)
  /\ (AlertEvent.pkText e = Some "" -> forall text, ("PK", text) ∉ rows)
  /\ (AlertEvent.pkText e = None -> AlertEvent.pkKm e = None ->
      forall text, ("PK", text) ∉ rows).
Proof.
  cbv zeta. unfold details.
  assert (Hpk : forall text,
            ("PK", text) ∈ omap (fun '(label, value) => Field rt label value)
                            (fields rt (event hit)) ->
            Field rt "PK"
              (coalesce (prop_str (AlertEvent.pkText (event hit)))
                 (match AlertEvent.pkKm (event hit) with
                  | Some km => VNumber km
                  | None => VNull
                  end)) = Some ("PK", text)).
  { intros text H. apply list_elem_of_omap in H as ([label value] & Hy & Hf).
    destruct (Field_shows _ _ _ _ Hf) as [Hrow _]. injection Hrow as <- _.
    unfold fields in Hy.
    repeat (apply elem_of_cons in Hy as [Hy|Hy];
            [first [discriminate Hy | injection Hy as ->; exact Hf]|]).
    apply elem_of_nil in Hy. destruct Hy. }
  assert (Hshow : forall v text,
            coalesce (prop_str (AlertEvent.pkText (event hit)))
              (match AlertEvent.pkKm (event hit) with
               | Some km => VNumber km
               | None => VNull
               end) = v ->
            Field rt "PK" v = Some ("PK", text) ->
            ("PK", text) ∈ omap (fun '(label, value) => Field rt label value)
                            (fields rt (event hit))).
  { intros v text Hv Hf. apply list_elem_of_omap.
    exists ("PK", v). split; [|exact Hf].
    unfold fields. rewrite Hv. do 3 apply list_elem_of_further. apply list_elem_of_here. }
  split; [|split; [|split]].
  - intros s Hs Hne. apply (Hshow (VString s)); [rewrite Hs; reflexivity|].
    destruct s; [contradiction | reflexivity].
  - intros km Ht Hk. apply (Hshow (VNumber km)); [rewrite Ht, Hk; reflexivity | reflexivity].
  - intros Hs text H. apply Hpk in H. rewrite Hs in H. discriminate H.
  - intros Ht Hk text H. apply Hpk in H. rewrite Ht, Hk in H. discriminate H.
Qed.

Lemma PK_row_witness :
  ("Carretera", "A-6") ∈ details Sample.rt (Some sample_roadworks)
  /\ forall text, ("PK", text) ∉ details Sample.rt (Some sample_roadworks).
Proof.
  split.
  - vm_compute. apply list_elem_of_further, list_elem_of_here.
  - exact (proj1 (proj2 (proj2 (PK_row Sample.rt sample_roadworks))) eq_refl).
Defined.

(** X16.  The detail card has rows exactly when there is a last alert: the
    "Coords" row is always among them, with both coordinates to five
    decimals, and there are never more than twelve. *)
Theorem details_shown_with_alert (rt : Runtime) (lastHit : option AlertHit) :
  (details rt lastHit = [] <-> lastHit = None)
  /\ (length (details rt lastHit) <= 12)%nat
  /\ (forall hit, lastHit = Some hit ->
      ("Coords",
       Num.toFixed (Number_toString rt) (AlertEvent.lat (event hit)) 5 ++ ", "
         ++ Num.toFixed (Number_toString rt) (AlertEvent.lon (event hit)) 5)
      ∈ details rt lastHit).
Proof.
  assert (Hcoords : forall hit,
            ("Coords",
             Num.toFixed (Number_toString rt) (AlertEvent.lat (event hit)) 5 ++ ", "
               ++ Num.toFixed (Number_toString rt) (AlertEvent.lon (event hit)) 5)
            ∈ details rt (Some hit)).
  { intros hit. unfold details. apply list_elem_of_omap.
    eexists (_, _). split.
    - unfold fields. do 10 apply list_elem_of_further. apply list_elem_of_here.
    - cbn. destruct (Num.toFixed _ _ _); reflexivity. }
  split; [|split].
  - split.
    + destruct lastHit as [hit|]; [|reflexivity].
      intros Hnil. pose proof (Hcoords hit) as Hin. rewrite Hnil in Hin.
      apply elem_of_nil in Hin. destruct Hin.
    + intros ->. reflexivity.
  - destruct lastHit as [hit|]; [|cbn; lia].
    unfold details. etransitivity; [apply omap_shorter|]. cbn. lia.
  - intros hit ->. apply Hcoords.
Qed.

Lemma details_shown_with_alert_witness :
  ("Coords", "40.00000, -3.00000")
  ∈ details Sample.rt (Some (Sample.incident 1500)).
Proof.
  exact (proj2 (proj2 (details_shown_with_alert Sample.rt
                         (Some (Sample.incident 1500))))
           (Sample.incident 1500) eq_refl).
Defined.

(** ** Colours *)

(** X17.  In both themes the danger colours of the pill and of the alert
    line are used for the status "ALERTA" and for no other status. *)
Theorem danger_only_for_alert (isDark : bool) (status : string) :
  let t := getTheme isDark in
  (pillStyle t status
   = {| backgroundColor := Theme.dangerBg t; borderColor := Theme.dangerBorder t |}
   <-> status = "ALERTA")
  /\ (pillTextStyle t status = Theme.dangerText t <-> status = "ALERTA")
  /\ (status <> "ALERTA" ->
      pillStyle t status
      = {| backgroundColor := Theme.pillBg t; borderColor := Theme.border t |}
      /\ pillTextStyle t status = Theme.text t).
Proof.
  cbv zeta. unfold pillStyle, pillTextStyle.
  destruct (String.eqb_spec status "ALERTA") as [->|Hne].
  - split; [|split]; [split; reflexivity | split; reflexivity | intros H; destruct H; reflexivity].
  - split; [|split].
    + split; [destruct isDark; discriminate | contradiction].
    + split; [destruct isDark; discriminate | contradiction].
    + intros _. split; reflexivity.
Qed.

Lemma danger_only_for_alert_witness :
  pillStyle (getTheme true) "Backend 500"
  = {| backgroundColor := "#162233"; borderColor := "#223044" |}
  /\ pillTextStyle (getTheme true) "Backend 500" = "#EAF0F6".
Proof.
  apply (proj2 (proj2 (danger_only_for_alert true "Backend 500"))).
  discriminate.
Defined.

(** X18.  [stopDriving] leaves the last alert on the screen, its line and (in
    the detailed revision) its rows, and takes the danger colours away. *)
Theorem stopDriving_keeps_alert_on_screen
    (rt : Runtime) (rv : Revision) (w : World rv) (wd : World (detail rt))
    (isDark : bool) :
  let t := getTheme isDark in
  shown rv (lastHit (screen (stopDriving w))) = shown rv (lastHit (screen w))
  /\ details rt (lastHit (screen (stopDriving wd))) = details rt (lastHit (screen wd))
  /\ pillStyle t (status (screen (stopDriving w)))
     = {| backgroundColor := Theme.pillBg t; borderColor := Theme.border t |}
  /\ pillTextStyle t (status (screen (stopDriving w))) = Theme.text t
  /\ pillStyle t (status (screen (stopDriving w))) <> pillStyle t "ALERTA".
Proof.
  cbv zeta. rewrite !stopDriving_screen.
  split; [reflexivity|]. split; [reflexivity|].
  split; [reflexivity|]. split; [reflexivity|].
  destruct isDark; discriminate.
Qed.

(** What a [tick] leaves depends on the state it starts from only through
    the last alert and the stored sound. *)
Lemma tick_final_fixed
    (rt : Runtime) (rv : Revision) (env : Oracle) (s : HomeScreen (Last rv)) :
  let f := final (exec (tick rt rv) env s) in
  forall s',
    lastHit s' = lastHit f -> soundRef s' = soundRef f ->
    final (exec (tick rt rv) env s')
    = mkScreen (driving s') (status f) false (lastHit f) (timerRef s') (soundRef f).
Proof.
  cbv zeta. tick_paths env s;
    intros [d' st' b' l' r' snd'] Hl Hs; cbn in Hl, Hs; subst l' snd'; cbn;
    repeat match goal with
      | H : env ?op = _ |- context [env ?op] => rewrite H; cbn
      end;
    reflexivity.
Qed.

(** X19.  A [tick] whose promises settle as those of the tick before it
    leaves the screen as that one left it. *)
Theorem tick_twice_same_answers
    (rt : Runtime) (rv : Revision) (env : Oracle) (s : HomeScreen (Last rv)) :
  final (exec (tick rt rv) env (final (exec (tick rt rv) env s)))
  = final (exec (tick rt rv) env s).
Proof.
  rewrite (tick_final_fixed rt rv env s _ eq_refl eq_refl).
  pose proof (tick_busy rt rv env s) as Hbusy.
  destruct (final (exec (tick rt rv) env s)) as [d st b l r snd].
  cbn in *. subst b. reflexivity.
Qed.

(** ** Two ticks at once *)

(** A suspended call after [S j] of its promises have settled. *)
Lemma settles_to {rv : Revision} (i : positive) (env : Oracle) (j : nat)
    (w : World rv) (t : Task rv) :
  tasks w !! i = Some t ->
  let a := after j (resume t (env (awaited t))) env (screen w) in
  let w' := settles (S j) i env w in
  screen w' = fst a
  /\ tasks w' !! i = match snd a with
                     | Waiting op k => Some (mkTask op k)
                     | Finished _ => None
                     end
  /\ forall i', i' <> i -> tasks w' !! i' = tasks w !! i'.
Proof.
  intros Ht. cbv zeta. split; [|split].
  - cbn [settles]. unfold settle. rewrite Ht.
    destruct (settles_after i env j (resume t (env (awaited t))) (screen w) w)
      as (w' & -> & _).
    destruct (after j _ env (screen w)) as [s p]. apply park_screen.
  - cbn [settles]. unfold settle. rewrite Ht.
    destruct (settles_after i env j (resume t (env (awaited t))) (screen w) w)
      as (w' & -> & _).
    destruct (after j _ env (screen w)) as [s [[a|e]|op k]]; cbn [park tasks snd].
    + apply lookup_delete_eq.
    + apply lookup_delete_eq.
    + apply lookup_insert_eq.
  - intros i' Hi'. apply settles_others, Hi'.
Qed.

(** X20.  Two ticks find a hit while no sound is stored, and both reach
    [beep] before either sound has been created.  Both then wait for a sound
    of their own to be created; each replays its own, and [soundRef] keeps
    the one that was created last. *)
Theorem overlapping_ticks_create_two_sounds
    (rt : Runtime) (rv : Revision) (w : World rv) (env env1 env2 : Oracle)
    (pos : LocationObject) (res : Response) (hit : AlertHit) (rest : list AlertHit)
    (sound1 sound2 : Sound) :
  soundRef (screen w) = None ->
  env GetCurrentPosition = Fulfilled pos ->
  env (Fetch (alerts_url rt rv (latitude (coords pos)) (longitude (coords pos))))
    = Fulfilled res ->
  ok res = true ->
  env (Json res) = Fulfilled (hit :: rest) ->
  env1 CreateSound = Fulfilled sound1 ->
  env2 CreateSound = Fulfilled sound2 ->
  let i1 := nextTask w in
  let i2 := Pos.succ i1 in
  let w2 := call (tick rt rv) (call (tick rt rv) w) in
  let w3 := settles 3 i2 env (settles 3 i1 env w2) in
  let w5 := settles 1 i2 env2 (settles 1 i1 env1 w3) in
  (exists t1 t2,
     tasks w3 !! i1 = Some t1 /\ awaited t1 = CreateSound
     /\ tasks w3 !! i2 = Some t2 /\ awaited t2 = CreateSound)
  /\ soundRef (screen w5) = Some sound2
  /\ (exists t1 t2,
        tasks w5 !! i1 = Some t1 /\ awaited t1 = Replay sound1
        /\ tasks w5 !! i2 = Some t2 /\ awaited t2 = Replay sound2).
Proof.
  intros Hnone Hpos Hres Hok Hjson Hc1 Hc2. cbv zeta.
  assert (Hne : nextTask w <> Pos.succ (nextTask w)) by apply Pos.succ_discr.
  set (w2 := call (tick rt rv) (call (tick rt rv) w)).
  (* the first tick up to [beep] *)
  assert (H1 : exists k, tasks w2 !! nextTask w = Some (mkTask GetCurrentPosition k)
                         /\ tasks w2 !! Pos.succ (nextTask w)
                            = Some (mkTask GetCurrentPosition k)
                         /\ soundRef (screen w2) = None
                         /\ forall s, soundRef s = None ->
                              exists k', after 2 (k (env GetCurrentPosition)) env s
                                         = (with_status "ALERTA"
                                              (with_lastHit (of_hit rv hit)
                                                 (with_status "Consultando incidencias…" s)),
                                            Waiting CreateSound k')
                              /\ forall (e : Oracle) snd s', e CreateSound = Fulfilled snd ->
                                   exists k'', advance (k' (e CreateSound)) s'
                                               = (with_soundRef (Some snd) s',
                                                  Waiting (Replay snd) k'')).
  { eexists. split; [|split; [|split]].
    - subst w2. unfold call. cbn [advance tick park tasks nextTask screen].
      cbn. rewrite lookup_insert_ne by (symmetry; exact Hne). apply lookup_insert_eq.
    - subst w2. cbn. apply lookup_insert_eq.
    - subst w2. cbn. exact Hnone.
    - intros s Hs. cbn. rewrite Hpos. cbn. rewrite Hres. cbn. rewrite Hok. cbn.
      rewrite Hjson. cbn. unfold beep. cbn. destruct s as [? ? ? ? ? snd0].
      cbn in Hs. subst snd0. cbn. eexists. split; [reflexivity|].
      intros e snd s' He. rewrite He. cbn. eexists. reflexivity. }
  destruct H1 as (k & Hk1 & Hk2 & Hs2 & Hrun).
  destruct (settles_to (nextTask w) env 2 w2 _ Hk1) as (Hsa & Hta & Hoa).
  set (wa := settles 3 (nextTask w) env w2) in *.
  cbn [resume awaited] in Hsa, Hta.
  destruct (Hrun _ Hs2) as (k1 & Hafter1 & Hplay1).
  rewrite Hafter1 in Hsa, Hta. cbn [fst snd] in Hsa, Hta.
  (* the second tick up to [beep] *)
  assert (Hk2a : tasks wa !! Pos.succ (nextTask w) = Some (mkTask GetCurrentPosition k)).
  { rewrite Hoa by (symmetry; exact Hne). exact Hk2. }
  destruct (settles_to (Pos.succ (nextTask w)) env 2 wa _ Hk2a) as (Hsb & Htb & Hob).
  set (wb := settles 3 (Pos.succ (nextTask w)) env wa) in *.
  cbn [resume awaited] in Hsb, Htb.
  assert (Hsanone : soundRef (screen wa) = None) by (rewrite Hsa; exact Hs2).
  destruct (Hrun _ Hsanone) as (k2 & Hafter2 & Hplay2).
  rewrite Hafter2 in Hsb, Htb. cbn [fst snd] in Hsb, Htb.
  assert (Ht1b : tasks wb !! nextTask w = Some (mkTask CreateSound k1)).
  { rewrite Hob by exact Hne. exact Hta. }
  split.
  { exists (mkTask CreateSound k1), (mkTask CreateSound k2). auto. }
  (* the two sounds are created *)
  destruct (settles_to (nextTask w) env1 0 wb _ Ht1b) as (Hsc & Htc & Hoc).
  set (wc := settles 1 (nextTask w) env1 wb) in *.
  cbn [resume awaited after] in Hsc, Htc.
  destruct (Hplay1 env1 sound1 (screen wb) Hc1) as (k1' & Hadv1).
  rewrite Hadv1 in Hsc, Htc. cbn [fst snd] in Hsc, Htc.
  assert (Ht2c : tasks wc !! Pos.succ (nextTask w) = Some (mkTask CreateSound k2)).
  { rewrite Hoc by (symmetry; exact Hne). exact Htb. }
  destruct (settles_to (Pos.succ (nextTask w)) env2 0 wc _ Ht2c) as (Hsd & Htd & Hod).
  set (wd := settles 1 (Pos.succ (nextTask w)) env2 wc) in *.
  cbn [resume awaited after] in Hsd, Htd.
  destruct (Hplay2 env2 sound2 (screen wc) Hc2) as (k2' & Hadv2).
  rewrite Hadv2 in Hsd, Htd. cbn [fst snd] in Hsd, Htd.
  split.
  - rewrite Hsd. reflexivity.
  - exists (mkTask (Replay sound1) k1'), (mkTask (Replay sound2) k2').
    split; [rewrite Hod by exact Hne; exact Htc|]. auto.
Qed.

Lemma overlapping_ticks_create_two_sounds_witness :
  let env := Sample.backend 200 [Sample.incident 1500] in
  let w := boot (detail Sample.rt) in
  let w2 := call (tick Sample.rt (detail Sample.rt))
              (call (tick Sample.rt (detail Sample.rt)) w) in
  let w3 := settles 3 2%positive env (settles 3 1%positive env w2) in
  let w5 := settles 1 2%positive (sample_sound 8%positive env)
              (settles 1 1%positive (sample_sound 7%positive env) w3) in
  soundRef (screen w5) = Some 8%positive
  /\ List.filter is_audio (requests w5)
     = [CreateSound; CreateSound; Replay 7%positive; Replay 8%positive].
Proof.
  cbv zeta. split.
  - exact (proj1 (proj2
             (overlapping_ticks_create_two_sounds Sample.rt (detail Sample.rt)
                (boot (detail Sample.rt))
                (Sample.backend 200 [Sample.incident 1500])
                (sample_sound 7%positive (Sample.backend 200 [Sample.incident 1500]))
                (sample_sound 8%positive (Sample.backend 200 [Sample.incident 1500]))
                Sample.here {| res_status := 200 |} (Sample.incident 1500) []
                7%positive 8%positive
                eq_refl eq_refl eq_refl eq_refl eq_refl eq_refl eq_refl))).
  - vm_compute. reflexivity.
Defined.
